(** * github-advanced-db: codecs, transfer coordinator and write queue

    A shallow embedding of the TypeScript sources
    - [formatters/JSONFormatter.ts], [JSONLFormatter.ts], [CSVFormatter.ts],
      [YAMLFormatter.ts], [FormatConverter.ts],
    - [transaction/TransactionEngine.ts],
    - [storage/StorageManager.ts] (the write queue, documents and
      collections), [crypto/HashManager.ts],
    - [query/QueryEngine.ts], [shard/ShardManager.ts] and the collection
      operations of the [GitHubDB] class,
    together with the properties of the specification that concern them.

    Strings are Rocq strings (sequences of 8-bit characters); JavaScript
    values are the JSON values with integer numbers.  The functions the
    caller passes in (predicate, transform, filter) are total and pure.
    Asynchronous code is modelled by the steps between two suspension
    points: what runs between two [await]s is one transition. *)

From Stdlib Require Import String Ascii ZArith List Bool Lia.
From stdpp Require Import base option list strings gmap pretty.

Open Scope string_scope.
Open Scope list_scope.

(** ** Results of fallible code

    A JavaScript function either returns or throws [new Error(message)]. *)

Inductive Result (A : Type) : Type :=
| Ok (value : A)
| Throw (message : string).
Arguments Ok {A} value.
Arguments Throw {A} message.

Definition bind {A B} (r : Result A) (k : A -> Result B) : Result B :=
  match r with
  | Ok a => k a
  | Throw e => Throw e
  end.

(** [try { r } catch (error) { handler(error.message) }] *)
Definition try_catch {A} (r : Result A) (handler : string -> Result A) : Result A :=
  match r with
  | Ok a => Ok a
  | Throw e => handler e
  end.

(** [xs.map(f)] for an [f] that may throw: the first throw ends the map. *)
Fixpoint mapM {A B} (f : A -> Result B) (xs : list A) : Result (list B) :=
  match xs with
  | [] => Ok []
  | x :: rest =>
      bind (f x) (fun y => bind (mapM f rest) (fun ys => Ok (y :: ys)))
  end.

(** [xs.map((x, index) => f(x, index))], the index counted from [i]. *)
Fixpoint mapM_index {A B} (f : A -> nat -> Result B) (i : nat) (xs : list A)
  : Result (list B) :=
  match xs with
  | [] => Ok []
  | x :: rest =>
      bind (f x i) (fun y => bind (mapM_index f (S i) rest) (fun ys => Ok (y :: ys)))
  end.

(** ** String primitives of the host language *)

Module Js.

(** White space removed by [String.prototype.trim], in the 7-bit range: tab,
    line feed, vertical tab, form feed, carriage return and space. *)
Definition is_white (c : ascii) : bool :=
  let n := nat_of_ascii c in
  Nat.eqb n 32 || (Nat.leb 9 n && Nat.leb n 13).

Fixpoint trimStart (s : string) : string :=
  match s with
  | EmptyString => EmptyString
  | String c rest => if is_white c then trimStart rest else s
  end.

Fixpoint trimEnd (s : string) : string :=
  match s with
  | EmptyString => EmptyString
  | String c rest =>
      match trimEnd rest with
      | EmptyString => if is_white c then EmptyString else String c EmptyString
      | t => String c t
      end
  end.

Definition trim (s : string) : string := trimEnd (trimStart s).

(** [!s.trim()]: the string is empty once trimmed. *)
Definition blank (s : string) : bool :=
  match trim s with
  | EmptyString => true
  | _ => false
  end.

(** [s.split(sep)] for a one-character separator. *)
Fixpoint split (sep : ascii) (s : string) : list string :=
  match s with
  | EmptyString => [EmptyString]
  | String c rest =>
      if Ascii.eqb c sep then EmptyString :: split sep rest
      else match split sep rest with
           | h :: t => String c h :: t
           | [] => [String c EmptyString]
           end
  end.

(** [xs.join(sep)] *)
Definition join (sep : string) (xs : list string) : string := String.concat sep xs.

Definition lower (c : ascii) : ascii :=
  let n := nat_of_ascii c in
  if Nat.leb 65 n && Nat.leb n 90 then ascii_of_nat (n + 32) else c.

Fixpoint toLowerCase (s : string) : string :=
  match s with
  | EmptyString => EmptyString
  | String c rest => String (lower c) (toLowerCase rest)
  end.

(** [s.includes(c)] for a one-character needle. *)
Fixpoint includes (c : ascii) (s : string) : bool :=
  match s with
  | EmptyString => false
  | String d rest => Ascii.eqb d c || includes c rest
  end.

(** Truthiness of a string: every string but the empty one. *)
Definition truthy (s : string) : bool :=
  match s with
  | EmptyString => false
  | _ => true
  end.

(** [s.endsWith(suffix)] *)
Fixpoint endsWith (suffix s : string) : bool :=
  String.eqb s suffix
  || match s with
     | EmptyString => false
     | String _ rest => endsWith suffix rest
     end.


(** [xs.pop()] on the result of a split: the last element. *)
Definition pop (xs : list string) : option string := last xs.

Definition newline : ascii := ascii_of_nat 10.
Definition comma : ascii := ascii_of_nat 44.
Definition quote : ascii := ascii_of_nat 34.
Definition dot : ascii := ascii_of_nat 46.

Definition nl : string := String newline EmptyString.

End Js.

(** ** Values and documents

    [Document] is [{ [key: string]: any }]: at run time any value may stand
    where a document is expected (an element of a parsed array, say), so a
    document is a value; [JObj] lists own properties in enumeration order. *)

#[warnings="-register-all"]
Inductive JValue : Type :=
| JNull
| JBool (b : bool)
| JNum (n : Z)
| JStr (s : string)
| JArr (items : list JValue)
| JObj (fields : list (string * JValue)).

Definition Document : Type := JValue.


Definition isObject (v : JValue) : bool :=
  match v with
  | JObj _ => true
  | _ => false
  end.

(** [obj[key] = value]: an existing property keeps its place. *)
Fixpoint obj_set (key : string) (value : JValue) (fields : list (string * JValue))
  : list (string * JValue) :=
  match fields with
  | [] => [(key, value)]
  | (k, v) :: rest =>
      if String.eqb k key then (k, value) :: rest
      else (k, v) :: obj_set key value rest
  end.

Fixpoint obj_get (key : string) (fields : list (string * JValue)) : option JValue :=
  match fields with
  | [] => None
  | (k, v) :: rest => if String.eqb k key then Some v else obj_get key rest
  end.

Definition chars (s : string) : list string :=
  map (fun c => String c EmptyString) (list_ascii_of_string s).

Definition indexed {A} (xs : list A) : list (string * A) :=
  imap (fun i x => (pretty i, x)) xs.

(** Own enumerable properties of a value that is not [null]: those of an
    object, the indices of an array or of a string, none for a number or a
    boolean.  Inherited properties are outside the model. *)
Definition own_entries (v : JValue) : list (string * JValue) :=
  match v with
  | JObj fields => fields
  | JArr items => indexed items
  | JStr s => indexed (map JStr (chars s))
  | _ => []
  end.

(** [Object.entries(v)]; [null] has no object to convert to. *)
Definition Object_entries (v : JValue) : Result (list (string * JValue)) :=
  match v with
  | JNull => Throw "Cannot convert undefined or null to object"
  | _ => Ok (own_entries v)
  end.

Definition Object_keys (v : JValue) : Result (list string) :=
  bind (Object_entries v) (fun es => Ok (map fst es)).

(** [v[key]], [None] standing for [undefined]. *)
Definition get_prop (v : JValue) (key : string) : option JValue :=
  obj_get key (own_entries v).

(** [key in v]: a type error on a primitive value. *)
Definition has_prop (key : string) (v : JValue) : Result bool :=
  match v with
  | JObj _ | JArr _ =>
      Ok (match get_prop v key with Some _ => true | None => false end)
  | _ => Throw "Cannot use 'in' operator to search for a key in a primitive"
  end.

(** [{ ...v, [key]: value }] *)
Definition spread_set (v : JValue) (key : string) (value : JValue) : JValue :=
  JObj (obj_set key value
          (fold_left (fun acc kv => obj_set (fst kv) (snd kv) acc) (own_entries v) [])).

(** [v.toString()] for a value that is neither [null] nor [undefined];
    inside an array, [null] prints as the empty string. *)
Fixpoint toString (v : JValue) : string :=
  match v with
  | JNull => "null"
  | JBool true => "true"
  | JBool false => "false"
  | JNum n => pretty n
  | JStr s => s
  | JArr items =>
      Js.join ","
        (map (fun x => match x with JNull => EmptyString | _ => toString x end) items)
  | JObj _ => "[object Object]"
  end.

(** [Array.from(new Set(xs))]: first occurrences, in order. *)
Fixpoint unique (xs : list string) (seen : list string) : list string :=
  match xs with
  | [] => []
  | x :: rest =>
      if existsb (String.eqb x) seen then unique rest seen
      else x :: unique rest (x :: seen)
  end.

(** ** What the platform provides

    [JSON.parse], [JSON.stringify], the [yaml] package and the clock are not
    part of the repository: the codecs are defined over any implementation of
    them.  [JSON_stringify v 0] is [JSON.stringify(v)], [JSON_stringify v n]
    is [JSON.stringify(v, null, n)].  The clock is read once per stamped
    document; one instant stands for all the reads of a call. *)

Record YamlDocument : Type := {
  yd_errors : list string;   (* messages of [doc.errors] *)
  yd_toJSON : JValue
}.

Class Platform : Type := {
  JSON_parse : string -> Result JValue;
  JSON_stringify : JValue -> nat -> string;
  yaml_parse : string -> Result JValue;
  yaml_parseAllDocuments : string -> list YamlDocument;
  yaml_stringify : JValue -> nat -> Result string;
  Date_toISOString : string
}.

(** ** formatters/types.ts *)

Record FormatOptions : Type := {
  indent : option nat;
  timestampField : option string
}.

Record Formatter : Type := {
  parse : string -> FormatOptions -> Result (list Document);
  serialize : list Document -> FormatOptions -> Result string;
  getFileExtension : string
}.

(** [ConversionOptions extends FormatOptions] *)
Record ConversionOptions : Type := {
  base : FormatOptions;
  sourceFormat : string;
  targetFormat : string;
  fieldMapping : option (list (string * string));   (* new name, old name *)
  filter : option (Document -> bool);
  transform : option (Document -> Document)
}.

(** [{ ...options, sourceFormat: s, targetFormat: t }] *)
Definition with_formats (options : ConversionOptions) (s t : string) : ConversionOptions :=
  {| base := base options;
     sourceFormat := s;
     targetFormat := t;
     fieldMapping := fieldMapping options;
     filter := filter options;
     transform := transform options |}.

Definition default_format_options : FormatOptions :=
  {| indent := None; timestampField := None |}.

Section Codecs.

Context `{Platform}.

(** ** formatters/JSONFormatter.ts *)

Definition JSONFormatter_parse (content : string) (options : FormatOptions)
  : Result (list Document) :=
  if Js.blank content then Ok []
  else
    try_catch
      (bind (JSON_parse content) (fun parsed =>
         Ok (match parsed with
             | JArr items => items
             | _ => [parsed]
             end)))
      (fun message => Throw ("Invalid JSON format: " +:+ message)).

Definition JSONFormatter_serialize (documents : list Document) (options : FormatOptions)
  : Result string :=
  let indent := default 2 (indent options) in
  let data := match documents with
              | [d] => d
              | _ => JArr documents
              end in
  Ok (JSON_stringify data indent).

Definition JSONFormatter : Formatter :=
  {| parse := JSONFormatter_parse;
     serialize := JSONFormatter_serialize;
     getFileExtension := "json" |}.

(** ** formatters/JSONLFormatter.ts *)

Definition non_blank_lines (content : string) : list string :=
  List.filter (fun line => negb (Js.blank line)) (Js.split Js.newline content).

Definition JSONLFormatter_parse (content : string) (options : FormatOptions)
  : Result (list Document) :=
  if Js.blank content then Ok []
  else
    mapM_index
      (fun line index =>
         try_catch (JSON_parse line)
           (fun message =>
              Throw ("Invalid JSONL at line " +:+ pretty (index + 1) +:+ ": " +:+ message)))
      0 (non_blank_lines content).

Definition JSONLFormatter_serialize (documents : list Document) (options : FormatOptions)
  : Result string :=
  Ok (Js.join Js.nl (map (fun doc => JSON_stringify doc 0) documents)
      +:+ (if Nat.ltb 0 (length documents) then Js.nl else EmptyString)).

Definition JSONLFormatter : Formatter :=
  {| parse := JSONLFormatter_parse;
     serialize := JSONLFormatter_serialize;
     getFileExtension := "jsonl" |}.

(** ** formatters/CSVFormatter.ts *)

(** The loop of [parseCSVLine] over the characters still to read, with its
    three variables [result], [current] and [inQuotes]. *)
Fixpoint parseCSVLine_loop (line : string) (result : list string) (current : string)
  (inQuotes : bool) : list string :=
  match line with
  | EmptyString => result ++ [current]
  | String char rest =>
      if Ascii.eqb char Js.quote then
        parseCSVLine_loop rest result current (negb inQuotes)
      else if Ascii.eqb char Js.comma && negb inQuotes then
        parseCSVLine_loop rest (result ++ [current]) EmptyString inQuotes
      else
        parseCSVLine_loop rest result (current +:+ String char EmptyString) inQuotes
  end.

Definition parseCSVLine (line : string) : list string :=
  map Js.trim (parseCSVLine_loop line [] EmptyString false).

(** [value.replace] of every quote character by two of them. *)
Fixpoint double_quotes (value : string) : string :=
  match value with
  | EmptyString => EmptyString
  | String c rest =>
      if Ascii.eqb c Js.quote then String Js.quote (String Js.quote (double_quotes rest))
      else String c (double_quotes rest)
  end.

Definition escapeCSV (value : string) : string :=
  if Js.includes Js.comma value || Js.includes Js.quote value
     || Js.includes Js.newline value
  then String Js.quote (double_quotes value) +:+ String Js.quote EmptyString
  else value.

(** [values[i] || ''] *)
Definition value_at (values : list string) (i : nat) : string :=
  match values !! i with
  | Some v => v
  | None => EmptyString
  end.

(** The document built from one line: [document[header] = values[i] || '']
    for each header in turn. *)
Definition csv_document (headers values : list string) : Document :=
  JObj (fold_left
          (fun document hi => obj_set (snd hi) (JStr (value_at values (fst hi))) document)
          (imap (fun i header => (i, header)) headers) []).

Definition CSVFormatter_parse (content : string) (options : FormatOptions)
  : Result (list Document) :=
  if Js.blank content then Ok []
  else
    let lines := non_blank_lines content in
    if Nat.ltb (length lines) 2 then Ok []
    else
      let headers := parseCSVLine (hd EmptyString lines) in
      Ok (map (fun line => csv_document headers (parseCSVLine line)) (tail lines)).

(** [doc[header]?.toString() || ''] *)
Definition cell (doc : Document) (header : string) : string :=
  match get_prop doc header with
  | None | Some JNull => EmptyString
  | Some v => toString v
  end.

Definition CSVFormatter_serialize (documents : list Document) (options : FormatOptions)
  : Result string :=
  match documents with
  | [] => Ok EmptyString
  | _ =>
      bind (mapM Object_keys documents) (fun keys =>
        let headers := unique (concat keys) [] in
        let lines :=
          Js.join "," (map escapeCSV headers)
          :: map (fun doc => Js.join "," (map (fun header => escapeCSV (cell doc header)) headers))
               documents in
        Ok (Js.join Js.nl lines +:+ Js.nl))
  end.

Definition CSVFormatter : Formatter :=
  {| parse := CSVFormatter_parse;
     serialize := CSVFormatter_serialize;
     getFileExtension := "csv" |}.

(** ** formatters/YAMLFormatter.ts *)

Definition YAMLFormatter_parse (content : string) (options : FormatOptions)
  : Result (list Document) :=
  if Js.blank content then Ok []
  else
    try_catch
      (try_catch
         (bind (yaml_parse content) (fun singleDoc =>
            Ok (match singleDoc with
                | JArr items => items
                | _ => [singleDoc]
                end)))
         (fun _ =>
            mapM (fun doc =>
                    match yd_errors doc with
                    | first :: _ => Throw ("YAML parsing error: " +:+ first)
                    | [] => Ok (yd_toJSON doc)
                    end)
              (yaml_parseAllDocuments content)))
      (fun message => Throw ("Invalid YAML format: " +:+ message)).

Definition YAMLFormatter_serialize (documents : list Document) (options : FormatOptions)
  : Result string :=
  match documents with
  | [] => Ok EmptyString
  | _ =>
      let stringify doc :=
        bind (yaml_stringify doc (default 2 (indent options))) (fun s => Ok (Js.trim s)) in
      try_catch
        (match documents with
         | [d] => stringify d
         | _ => bind (mapM stringify documents) (fun parts =>
                  Ok (Js.join (Js.nl +:+ "---" +:+ Js.nl) parts))
         end)
        (fun message => Throw ("Failed to serialize YAML: " +:+ message))
  end.

Definition YAMLFormatter : Formatter :=
  {| parse := YAMLFormatter_parse;
     serialize := YAMLFormatter_serialize;
     getFileExtension := "yaml" |}.

End Codecs.

(** ** formatters/FormatConverter.ts *)

Section FormatConverter.

Context `{Platform}.

(** The registry as the constructor fills it. *)
Definition formatters : gmap string Formatter :=
  <["yaml" := YAMLFormatter]>
    (<["csv" := CSVFormatter]>
       (<["jsonl" := JSONLFormatter]>
          (<["json" := JSONFormatter]> ∅))).

Definition getFormatter (format : string) : Result Formatter :=
  match formatters !! format with
  | Some formatter => Ok formatter
  | None => Throw ("Unsupported format: " +:+ format)
  end.

(** [filename.split('.').pop()?.toLowerCase()] *)
Definition extension (filename : string) : option string :=
  Js.toLowerCase <$> Js.pop (Js.split Js.dot filename).

Definition detectFormat (filename : string) : string :=
  match extension filename with
  | Some ext =>
      if String.eqb ext "json" then "json"
      else if String.eqb ext "jsonl" then "jsonl"
      else if String.eqb ext "csv" then "csv"
      else if String.eqb ext "yaml" then "yaml"
      else if String.eqb ext "yml" then "yaml"
      else "json"
  | None => "json"
  end.

(** The first loop of [applyFieldMapping]: one step per entry of the
    mapping, [mapped] being the object built so far. *)
Fixpoint map_renamed (doc : Document) (mapping : list (string * string))
  (mapped : list (string * JValue)) : Result (list (string * JValue)) :=
  match mapping with
  | [] => Ok mapped
  | (newField, oldField) :: rest =>
      bind (has_prop oldField doc) (fun present =>
        map_renamed doc rest
          (if present then
             match get_prop doc oldField with
             | Some v => obj_set newField v mapped
             | None => mapped
             end
           else mapped))
  end.

(** The second loop: the fields that are no old name of the mapping. *)
Definition add_unmapped (mapping : list (string * string)) (entries : list (string * JValue))
  (mapped : list (string * JValue)) : list (string * JValue) :=
  fold_left
    (fun acc kv =>
       if existsb (String.eqb (fst kv)) (map snd mapping) then acc
       else obj_set (fst kv) (snd kv) acc)
    entries mapped.

Definition applyFieldMapping (doc : Document) (mapping : list (string * string))
  : Result Document :=
  bind (map_renamed doc mapping []) (fun mapped =>
    bind (Object_entries doc) (fun entries =>
      Ok (JObj (add_unmapped mapping entries mapped)))).

(** The four steps shared by [convertContent] and [convertDocuments]:
    filter, transform, field mapping, time stamp. *)
Definition apply_filter (options : ConversionOptions) (docs : list Document) : list Document :=
  match filter options with
  | Some keep => List.filter keep docs
  | None => docs
  end.

Definition apply_transform (options : ConversionOptions) (docs : list Document) : list Document :=
  match transform options with
  | Some f => map f docs
  | None => docs
  end.

Definition apply_mapping (options : ConversionOptions) (docs : list Document)
  : Result (list Document) :=
  match fieldMapping options with
  | Some mapping => mapM (fun doc => applyFieldMapping doc mapping) docs
  | None => Ok docs
  end.

Definition apply_timestamp (options : ConversionOptions) (docs : list Document) : list Document :=
  match timestampField (base options) with
  | Some field =>
      if Js.truthy field
      then map (fun doc => spread_set doc field (JStr Date_toISOString)) docs
      else docs
  | None => docs
  end.

Definition conversions (options : ConversionOptions) (docs : list Document)
  : Result (list Document) :=
  bind (apply_mapping options (apply_transform options (apply_filter options docs)))
    (fun mapped => Ok (apply_timestamp options mapped)).

Definition convertContent (content : string) (options : ConversionOptions) : Result string :=
  bind (getFormatter (sourceFormat options)) (fun sourceFormatter =>
    bind (getFormatter (targetFormat options)) (fun targetFormatter =>
      bind (parse sourceFormatter content (base options)) (fun documents =>
        bind (conversions options documents) (fun documents =>
          serialize targetFormatter documents (base options))))).

Definition convertDocuments (documents : list Document) (options : ConversionOptions)
  : Result string :=
  bind (getFormatter (targetFormat options)) (fun targetFormatter =>
    bind (conversions options documents) (fun processedDocs =>
      serialize targetFormatter processedDocs (base options))).

End FormatConverter.

(** ** The remote content store

    Modelled from the spec: the service that [GitHubAPIWrapper] reaches over
    HTTP is not among the sources, so the calls of the wrapper are modelled
    together with the answers of the service.  Section 6 gives the contract:
    [read] returns the content and revision of a path or reports that it is
    absent, [create] fails if the path exists, [update] fails with a revision
    conflict if the revision passed is stale.  Every successful write gives
    the path a new revision.  A read may also fail in transport ([failing]).
    The wording of a failure is the model's own: the wrapper passes on the
    message of the service behind a prefix of its own. *)

Record File : Type := {
  content : string;
  sha : option string
}.

Inductive ApiCall : Type :=
| CreateFile (path content message : string)
| UpdateFile (path content message : string) (revision : option string).

Record Remote : Type := {
  files : gmap string File;
  failing : gset string;     (* paths whose read is rejected *)
  counter : nat;             (* revisions handed out so far *)
  calls : list ApiCall       (* the writes requested, oldest first *)
}.

(** A settled promise, as [Promise.allSettled] reports it. *)
Inductive Settled (A : Type) : Type :=
| Fulfilled (value : A)
| Rejected (reason : string).
Arguments Fulfilled {A} value.
Arguments Rejected {A} reason.

Definition Api (A : Type) : Type := Remote -> Result A * Remote.

Definition ret {A} (a : A) : Api A := fun r => (Ok a, r).

Definition throw {A} (message : string) : Api A := fun r => (Throw message, r).

Definition and_then {A B} (c : Api A) (k : A -> Api B) : Api B :=
  fun r =>
    match c r with
    | (Ok a, r') => k a r'
    | (Throw e, r') => (Throw e, r')
    end.

(** [try { c } catch (error) { handler(error.message) }] *)
Definition catch {A} (c : Api A) (handler : string -> Api A) : Api A :=
  fun r =>
    match c r with
    | (Ok a, r') => (Ok a, r')
    | (Throw e, r') => handler e r'
    end.

Definition lift {A} (x : Result A) : Api A := fun r => (x, r).

Declare Scope api_scope.
Delimit Scope api_scope with api.
Notation "x <- c ;; k" := (and_then c (fun x => k))
  (at level 100, c at next level, k at level 200, right associativity) : api_scope.
Notation "c ;; k" := (and_then c (fun _ => k))
  (at level 100, k at level 200, right associativity) : api_scope.

Definition fresh_revision (r : Remote) : string := "rev" +:+ pretty (counter r).

Definition read (r : Remote) (path : string) : Settled (option File) :=
  if decide (path ∈ failing r) then Rejected "Network error"
  else Fulfilled (files r !! path).

(** [api.getFile(path)], awaited: a rejection is thrown. *)
Definition getFile (path : string) : Api (option File) :=
  fun r =>
    match read r path with
    | Fulfilled v => (Ok v, r)
    | Rejected e => (Throw e, r)
    end.

Definition record_call (c : ApiCall) (r : Remote) : Remote :=
  {| files := files r; failing := failing r; counter := counter r;
     calls := calls r ++ [c] |}.

Definition store_file (path content : string) (r : Remote) : Remote :=
  {| files := <[path := {| content := content; sha := Some (fresh_revision r) |}]> (files r);
     failing := failing r;
     counter := S (counter r);
     calls := calls r |}.

Definition createFile (path content message : string) : Api unit :=
  fun r =>
    let r := record_call (CreateFile path content message) r in
    match files r !! path with
    | Some _ => (Throw ("File already exists: " +:+ path), r)
    | None => (Ok tt, store_file path content r)
    end.

Definition updateFile (path content message : string) (revision : option string) : Api unit :=
  fun r =>
    let r := record_call (UpdateFile path content message revision) r in
    match files r !! path, revision with
    | Some f, Some rev =>
        if decide (sha f = Some rev) then (Ok tt, store_file path content r)
        else (Throw ("Revision conflict: " +:+ path), r)
    | _, _ => (Throw ("Revision conflict: " +:+ path), r)
    end.

(** ** transaction/TransactionEngine.ts *)

Record TransactionState : Type := {
  sourcePath : string;
  destPath : string;
  sourceContent : string;
  destContent : string;
  sourceSha : option string;
  destSha : option string
}.

Record TransferOptions : Type := {
  predicate : Document -> bool;
  conversion : option ConversionOptions;
  transfer_transform : option (Document -> Document)
}.

(** Truthiness of an optional revision: [undefined] and the empty string
    are falsy. *)
Definition present (revision : option string) : bool :=
  match revision with
  | Some s => Js.truthy s
  | None => false
  end.

Section TransactionEngine.

Context `{Platform}.

Local Open Scope api_scope.

Definition updateBothFiles (state : TransactionState) (message : string) : Api unit :=
  catch
    (updateFile (destPath state) (destContent state) message (destSha state) ;;
     updateFile (sourcePath state) (sourceContent state) message (sourceSha state))
    (fun firstError => throw firstError).

Definition atomicCommit (state : TransactionState) (movedCount : nat) : Api unit :=
  let commitMessage :=
    "Transfer: Moved " +:+ pretty movedCount +:+ " documents from "
    +:+ sourcePath state +:+ " to " +:+ destPath state in
  catch
    (if present (sourceSha state) && present (destSha state) then
       updateBothFiles state commitMessage
     else if present (sourceSha state) && negb (present (destSha state)) then
       createFile (destPath state) (destContent state) commitMessage ;;
       updateFile (sourcePath state) (sourceContent state) commitMessage (sourceSha state)
     else if negb (present (sourceSha state)) then
       throw ("Source file " +:+ sourcePath state +:+ " does not exist")
     else
       createFile (sourcePath state) (sourceContent state)
         ("Initialize " +:+ sourcePath state) ;;
       updateFile (destPath state) (destContent state) commitMessage (destSha state))
    (fun message => throw ("Transfer failed: " +:+ message)).

Definition parseFileContent (fileResult : Settled (option File)) (format : string)
  : list Document :=
  match fileResult with
  | Rejected _ | Fulfilled None => []
  | Fulfilled (Some value) =>
      if Js.blank (content value) then []
      else
        match
          bind (getFormatter format) (fun formatter =>
            parse formatter (content value) default_format_options)
        with
        | Ok documents => documents
        | Throw _ => []
        end
  end.

Definition serializeContent (docs : list Document) (format : string) : Result string :=
  bind (getFormatter format) (fun formatter =>
    serialize formatter docs default_format_options).

(** The loop of [processTransfer]: each document is pushed on one of the
    two arrays. *)
Definition processTransfer (sourceDocs : list Document) (predicate : Document -> bool)
  : list Document * list Document :=
  fold_left
    (fun acc doc =>
       if predicate doc then (fst acc ++ [doc], snd acc)
       else (fst acc, snd acc ++ [doc]))
    sourceDocs ([], []).

Definition mergeWithDestination (destPath : string) (destDocs newDocs : list Document)
  (options : ConversionOptions) : list Document :=
  destDocs ++ newDocs.

(** [file.status === 'fulfilled' && file.value ? file.value.sha : undefined] *)
Definition captured_sha (fileResult : Settled (option File)) : option string :=
  match fileResult with
  | Fulfilled (Some value) => sha value
  | _ => None
  end.

(** [executeAtomicTransfer] once both reads have settled, the formats being
    those detected from the two paths. *)
Definition transfer_settled (sourceFormat destFormat : string)
  (sourcePath destPath : string) (options : TransferOptions)
  (sourceFile destFile : Settled (option File)) : Api unit :=
  let sourceDocs := parseFileContent sourceFile sourceFormat in
  let destDocs := parseFileContent destFile destFormat in
  let (matching, remaining) := processTransfer sourceDocs (predicate options) in
  if Nat.eqb (length matching) 0 then ret tt
  else
    let processedMatching :=
      match transfer_transform options with
      | Some f => map f matching
      | None => matching
      end in
    match conversion options with
    | Some conv =>
        convertedContent <-
          lift (convertDocuments processedMatching (with_formats conv sourceFormat destFormat)) ;;
        let newDestDocs :=
          mergeWithDestination destPath destDocs processedMatching
            (with_formats conv destFormat destFormat) in
        newDestContent <-
          lift (convertDocuments newDestDocs (with_formats conv destFormat destFormat)) ;;
        newSourceContent <-
          lift (convertDocuments remaining (with_formats conv sourceFormat sourceFormat)) ;;
        atomicCommit
          {| sourcePath := sourcePath;
             destPath := destPath;
             sourceContent := newSourceContent;
             destContent := newDestContent;
             sourceSha := captured_sha sourceFile;
             destSha := captured_sha destFile |}
          (length processedMatching)
    | None =>
        let newDestDocs := destDocs ++ processedMatching in
        newSourceContent <- lift (serializeContent remaining sourceFormat) ;;
        newDestContent <- lift (serializeContent newDestDocs destFormat) ;;
        atomicCommit
          {| sourcePath := sourcePath;
             destPath := destPath;
             sourceContent := newSourceContent;
             destContent := newDestContent;
             sourceSha := captured_sha sourceFile;
             destSha := captured_sha destFile |}
          (length processedMatching)
    end.

Definition executeAtomicTransfer (sourcePath destPath : string) (options : TransferOptions)
  : Api unit :=
  fun r =>
    let sourceFile := read r sourcePath in
    let destFile := read r destPath in
    let sourceFormat := detectFormat sourcePath in
    let destFormat := detectFormat destPath in
    transfer_settled sourceFormat destFormat sourcePath destPath options
      sourceFile destFile r.

(** The lock table, [Map<string, boolean>]. *)
Definition lockKey (sourcePath destPath : string) : string :=
  sourcePath +:+ "-" +:+ destPath.

(** [this.transactionLock.get(lockKey)] as a condition. *)
Definition locked (locks : gmap string bool) (key : string) : bool :=
  default false (locks !! key).

(** [transfer] up to its first suspension: the test of the lock and, when
    it is free, its setting. *)
Definition transfer_enter (sourcePath destPath : string) (locks : gmap string bool)
  : Result unit * gmap string bool :=
  let key := lockKey sourcePath destPath in
  if locked locks key then
    (Throw ("Transaction already in progress for " +:+ key), locks)
  else (Ok tt, <[key := true]> locks).

(** The [finally] block of [transfer]. *)
Definition transfer_exit (sourcePath destPath : string) (locks : gmap string bool)
  : gmap string bool :=
  delete (lockKey sourcePath destPath) locks.

(** A whole call of [transfer] that no other call overlaps. *)
Definition transfer (sourcePath destPath : string) (options : TransferOptions)
  (locks : gmap string bool) (r : Remote)
  : Result unit * gmap string bool * Remote :=
  match transfer_enter sourcePath destPath locks with
  | (Throw e, locks') => (Throw e, locks', r)
  | (Ok _, locks') =>
      let (outcome, r') := executeAtomicTransfer sourcePath destPath options r in
      (outcome, transfer_exit sourcePath destPath locks', r')
  end.

Definition convertFormat (sourcePath destPath : string) (options : ConversionOptions)
  : Api unit :=
  sourceFile <- getFile sourcePath ;;
  match sourceFile with
  | None => throw ("Source file " +:+ sourcePath +:+ " not found")
  | Some file =>
      convertedContent <- lift (convertContent (content file) options) ;;
      createFile destPath convertedContent
        ("Convert format: " +:+ sourcePath +:+ " -> " +:+ destPath)
  end.

End TransactionEngine.

(** Overlapping calls of [transfer] on one engine.  A call enters (its
    synchronous first part runs) and, if it was let in, leaves later through
    its [finally] block; calls that are in flight together interleave at
    these two points. *)

Inductive TransferEvent : Type :=
| Enter (sourcePath destPath : string)
| Leave (sourcePath destPath : string).

Record Engine : Type := {
  transactionLock : gmap string bool;
  in_flight : list (string * string);        (* calls let in and not yet left *)
  outcomes : list (string * string * Result unit)  (* answers given on entry *)
}.

Definition new_engine : Engine :=
  {| transactionLock := ∅; in_flight := []; outcomes := [] |}.

Definition pair_eqb (p q : string * string) : bool :=
  String.eqb (fst p) (fst q) && String.eqb (snd p) (snd q).

Fixpoint remove_first (p : string * string) (l : list (string * string))
  : list (string * string) :=
  match l with
  | [] => []
  | q :: rest => if pair_eqb p q then rest else q :: remove_first p rest
  end.

(** One event; [None] when a call leaves that was never let in. *)
Definition engine_step (e : Engine) (ev : TransferEvent) : option Engine :=
  match ev with
  | Enter s d =>
      let (answer, locks) := transfer_enter s d (transactionLock e) in
      Some {| transactionLock := locks;
              in_flight := match answer with
                           | Ok _ => in_flight e ++ [(s, d)]
                           | Throw _ => in_flight e
                           end;
              outcomes := outcomes e ++ [(s, d, answer)] |}
  | Leave s d =>
      if existsb (pair_eqb (s, d)) (in_flight e) then
        Some {| transactionLock := transfer_exit s d (transactionLock e);
                in_flight := remove_first (s, d) (in_flight e);
                outcomes := outcomes e |}
      else None
  end.

Fixpoint engine_run (e : Engine) (evs : list TransferEvent) : option Engine :=
  match evs with
  | [] => Some e
  | ev :: rest =>
      match engine_step e ev with
      | Some e' => engine_run e' rest
      | None => None
      end
  end.

(** ** storage/StorageManager.ts: the write queue

    A queued write is the closure pushed by [enqueueWrite]; it is kept as the
    four values it captures.  The manager runs as cooperative tasks: a task
    runs until its next [await] and is resumed when the awaited call of the
    remote store answers.  [drains] holds the activations of
    [processWriteQueue] that are suspended inside a write, [futures] the
    promises of [enqueueWrite] and [flushWriteQueue] that have settled,
    [journal] the writes started and finished, in order. *)

Record QueuedWrite : Type := {
  qw_path : string;
  qw_content : string;
  qw_message : string;
  qw_append : bool
}.

Inductive Phase : Type :=
| AwaitRead                              (* at [await this.api.getFile(path)] *)
| AwaitWrite (existing : option File).   (* at [await this.api.updateFile/createFile] *)

Record Drain : Type := {
  owner : nat;            (* the call whose promise awaits this activation *)
  running : QueuedWrite;
  phase : Phase
}.

Inductive Mark : Type :=
| Started (w : QueuedWrite)
| Finished (w : QueuedWrite) (outcome : Result unit).

Record StorageManager : Type := {
  writeQueue : list QueuedWrite;
  isProcessingQueue : bool;
  drains : list Drain;
  futures : list (nat * Result unit);
  journal : list Mark;
  store : Remote
}.

Definition new_manager (r : Remote) : StorageManager :=
  {| writeQueue := []; isProcessingQueue := false; drains := [];
     futures := []; journal := []; store := r |}.

Definition settle (caller : nat) (outcome : Result unit) (m : StorageManager)
  : StorageManager :=
  {| writeQueue := writeQueue m; isProcessingQueue := isProcessingQueue m;
     drains := drains m; futures := futures m ++ [(caller, outcome)];
     journal := journal m; store := store m |}.

(** The [while] loop of [processWriteQueue] from its test: either the next
    write is shifted and started (the activation suspends at the read of the
    write), or the queue is empty, the flag is cleared and the promise of the
    activation resolves. *)
Definition drain_loop (caller : nat) (m : StorageManager) : StorageManager :=
  match writeQueue m with
  | writeOperation :: rest =>
      {| writeQueue := rest; isProcessingQueue := isProcessingQueue m;
         drains := drains m ++ [{| owner := caller; running := writeOperation;
                                   phase := AwaitRead |}];
         futures := futures m;
         journal := journal m ++ [Started writeOperation];
         store := store m |}
  | [] =>
      settle caller (Ok tt)
        {| writeQueue := []; isProcessingQueue := false;
           drains := drains m; futures := futures m;
           journal := journal m; store := store m |}
  end.

Definition processWriteQueue (caller : nat) (m : StorageManager) : StorageManager :=
  if isProcessingQueue m then settle caller (Ok tt) m
  else
    drain_loop caller
      {| writeQueue := writeQueue m; isProcessingQueue := true;
         drains := drains m; futures := futures m;
         journal := journal m; store := store m |}.

Definition enqueueWrite (caller : nat) (w : QueuedWrite) (m : StorageManager)
  : StorageManager :=
  let m := {| writeQueue := writeQueue m ++ [w];
              isProcessingQueue := isProcessingQueue m;
              drains := drains m; futures := futures m;
              journal := journal m; store := store m |} in
  if negb (isProcessingQueue m) then processWriteQueue caller m
  else settle caller (Ok tt) m.

Definition flushWriteQueue (caller : nat) (m : StorageManager) : StorageManager :=
  processWriteQueue caller m.

(** [await this.api.getFile(path).catch(() => null)] *)
Definition read_existing (r : Remote) (path : string) : option File :=
  match read r path with
  | Fulfilled v => v
  | Rejected _ => None
  end.

(** The write a queued closure requests once it knows [existing]. *)
Definition write_request (w : QueuedWrite) (existing : option File) : Api unit :=
  match existing with
  | Some file =>
      if qw_append w then
        updateFile (qw_path w) (content file +:+ qw_content w) (qw_message w) (sha file)
      else
        updateFile (qw_path w) (qw_content w) (qw_message w) (sha file)
  | None => createFile (qw_path w) (qw_content w) (qw_message w)
  end.

Definition with_drains (ds : list Drain) (m : StorageManager) : StorageManager :=
  {| writeQueue := writeQueue m; isProcessingQueue := isProcessingQueue m;
     drains := ds; futures := futures m; journal := journal m; store := store m |}.

(** The remote store answers the read of activation [k]. *)
Definition read_done (k : nat) (m : StorageManager) : option StorageManager :=
  match drains m !! k with
  | Some {| owner := caller; running := w; phase := AwaitRead |} =>
      Some (with_drains
              (<[k := {| owner := caller; running := w;
                         phase := AwaitWrite (read_existing (store m) (qw_path w)) |}]>
                 (drains m)) m)
  | _ => None
  end.

(** The remote store answers the write of activation [k]: the closure
    returns or throws, and the loop goes on or its promise is rejected. *)
Definition write_done (k : nat) (m : StorageManager) : option StorageManager :=
  match drains m !! k with
  | Some {| owner := caller; running := w; phase := AwaitWrite existing |} =>
      let (outcome, r) := write_request w existing (store m) in
      let m' := {| writeQueue := writeQueue m;
                   isProcessingQueue := isProcessingQueue m;
                   drains := delete k (drains m);
                   futures := futures m;
                   journal := journal m ++ [Finished w outcome];
                   store := r |} in
      Some (match outcome with
            | Ok _ => drain_loop caller m'
            | Throw e => settle caller (Throw e) m'
            end)
  | _ => None
  end.

(** Another client of the remote store writes [path]. *)
Definition external_write (path content : string) (m : StorageManager) : StorageManager :=
  {| writeQueue := writeQueue m; isProcessingQueue := isProcessingQueue m;
     drains := drains m; futures := futures m; journal := journal m;
     store := store_file path content (store m) |}.

Inductive QueueEvent : Type :=
| Enqueue (caller : nat) (w : QueuedWrite)
| Flush (caller : nat)
| ReadDone (k : nat)
| WriteDone (k : nat)
| External (path content : string).

Definition queue_step (m : StorageManager) (ev : QueueEvent) : option StorageManager :=
  match ev with
  | Enqueue caller w => Some (enqueueWrite caller w m)
  | Flush caller => Some (flushWriteQueue caller m)
  | ReadDone k => read_done k m
  | WriteDone k => write_done k m
  | External path content => Some (external_write path content m)
  end.

Fixpoint queue_run (m : StorageManager) (evs : list QueueEvent) : option StorageManager :=
  match evs with
  | [] => Some m
  | ev :: rest =>
      match queue_step m ev with
      | Some m' => queue_run m' rest
      | None => None
      end
  end.

(** The writes submitted by a sequence of events, in submission order. *)
Fixpoint submitted (evs : list QueueEvent) : list QueuedWrite :=
  match evs with
  | [] => []
  | Enqueue _ w :: rest => w :: submitted rest
  | _ :: rest => submitted rest
  end.




(** ** A reference platform

    An executable [JSON.parse] and [JSON.stringify] on the modelled values,
    after ECMA-404: numbers are integers in decimal, strings escape the quote,
    the backslash and the control characters.  It serves to run the codecs on
    concrete inputs; the general statements hold for any platform. *)

Module Json.

Definition backslash : ascii := ascii_of_nat 92.

Definition hex_digit (n : nat) : ascii :=
  if Nat.ltb n 10 then ascii_of_nat (48 + n) else ascii_of_nat (87 + n).

Definition escape_char (c : ascii) : string :=
  let n := nat_of_ascii c in
  if Ascii.eqb c Js.quote then String backslash (String Js.quote EmptyString)
  else if Ascii.eqb c backslash then String backslash (String backslash EmptyString)
  else if Nat.eqb n 8 then String backslash "b"
  else if Nat.eqb n 9 then String backslash "t"
  else if Nat.eqb n 10 then String backslash "n"
  else if Nat.eqb n 12 then String backslash "f"
  else if Nat.eqb n 13 then String backslash "r"
  else if Nat.ltb n 32 then
    String backslash "u00" +:+ String (hex_digit (n / 16)) (String (hex_digit (n mod 16)) EmptyString)
  else String c EmptyString.

Fixpoint escape (s : string) : string :=
  match s with
  | EmptyString => EmptyString
  | String c rest => escape_char c +:+ escape rest
  end.

Definition quoted (s : string) : string :=
  String Js.quote (escape s) +:+ String Js.quote EmptyString.

Fixpoint spaces (n : nat) : string :=
  match n with
  | 0 => EmptyString
  | S n => String " " (spaces n)
  end.

(** [gap] is the indentation unit, [current] the indentation reached. *)
Fixpoint stringify_at (gap current : string) (v : JValue) : string :=
  let inner := current +:+ gap in
  let wrap (opening closing : string) (parts : list string) : string :=
    if Js.truthy gap then
      opening +:+ Js.nl +:+ inner
      +:+ Js.join ("," +:+ Js.nl +:+ inner) parts
      +:+ Js.nl +:+ current +:+ closing
    else opening +:+ Js.join "," parts +:+ closing in
  match v with
  | JNull => "null"
  | JBool true => "true"
  | JBool false => "false"
  | JNum n => pretty n
  | JStr s => quoted s
  | JArr [] => "[]"
  | JArr items => wrap "[" "]" (map (stringify_at gap inner) items)
  | JObj [] => "{}"
  | JObj fields =>
      wrap "{" "}"
        (map (fun kv =>
                quoted (fst kv) +:+ (if Js.truthy gap then ": " else ":")
                +:+ stringify_at gap inner (snd kv))
           fields)
  end.

Definition stringify (v : JValue) (indent : nat) : string :=
  stringify_at (spaces (Nat.min indent 10)) EmptyString v.

Definition is_json_white (c : ascii) : bool :=
  let n := nat_of_ascii c in
  Nat.eqb n 32 || Nat.eqb n 9 || Nat.eqb n 10 || Nat.eqb n 13.

Fixpoint skip_white (s : string) : string :=
  match s with
  | String c rest => if is_json_white c then skip_white rest else s
  | EmptyString => EmptyString
  end.

Definition is_digit (c : ascii) : bool :=
  let n := nat_of_ascii c in Nat.leb 48 n && Nat.leb n 57.

Definition hex_value (c : ascii) : option nat :=
  let n := nat_of_ascii c in
  if Nat.leb 48 n && Nat.leb n 57 then Some (n - 48)
  else if Nat.leb 97 n && Nat.leb n 102 then Some (n - 87)
  else if Nat.leb 65 n && Nat.leb n 70 then Some (n - 55)
  else None.

(** The characters of a string literal after its opening quote. *)
Fixpoint string_body (s : string) : Result (string * string) :=
  match s with
  | EmptyString => Throw "Unterminated string in JSON"
  | String c rest =>
      if Ascii.eqb c Js.quote then Ok (EmptyString, rest)
      else if Ascii.eqb c backslash then
        match rest with
        | String e rest' =>
            let simple (d : ascii) :=
              bind (string_body rest') (fun r => Ok (String d (fst r), snd r)) in
            if Ascii.eqb e Js.quote then simple Js.quote
            else if Ascii.eqb e backslash then simple backslash
            else if Ascii.eqb e "/" then simple "/"%char
            else if Ascii.eqb e "b" then simple (ascii_of_nat 8)
            else if Ascii.eqb e "t" then simple (ascii_of_nat 9)
            else if Ascii.eqb e "n" then simple (ascii_of_nat 10)
            else if Ascii.eqb e "f" then simple (ascii_of_nat 12)
            else if Ascii.eqb e "r" then simple (ascii_of_nat 13)
            else if Ascii.eqb e "u" then
              match rest' with
              | String "0" (String "0" (String h (String l rest''))) =>
                  match hex_value h, hex_value l with
                  | Some a, Some b =>
                      bind (string_body rest'') (fun r =>
                        Ok (String (ascii_of_nat (16 * a + b)) (fst r), snd r))
                  | _, _ => Throw "Bad Unicode escape in JSON"
                  end
              | _ => Throw "Bad Unicode escape in JSON"
              end
            else Throw "Bad escaped character in JSON"
        | EmptyString => Throw "Unterminated string in JSON"
        end
      else if Nat.ltb (nat_of_ascii c) 32 then Throw "Bad control character in string literal in JSON"
      else bind (string_body rest) (fun r => Ok (String c (fst r), snd r))
  end.

Fixpoint digits (s : string) (acc : N) : N * string :=
  match s with
  | String c rest =>
      if is_digit c then digits rest (10 * acc + N.of_nat (nat_of_ascii c - 48))%N
      else (acc, s)
  | EmptyString => (acc, s)
  end.

(** An integer literal: digits without a leading zero, no fraction and no
    exponent. *)
Definition natural (s : string) : Result (N * string) :=
  match s with
  | String c rest =>
      if is_digit c then
        let (n, rest') := digits s 0%N in
        let followed :=
          match rest' with
          | String d _ => Ascii.eqb d "." || Ascii.eqb d "e" || Ascii.eqb d "E"
          | EmptyString => false
          end in
        let leading_zero :=
          match rest with
          | String d _ => Ascii.eqb c "0" && is_digit d
          | EmptyString => false
          end in
        if followed || leading_zero then Throw "Number outside the integers"
        else Ok (n, rest')
      else Throw "No number after minus sign in JSON"
  | EmptyString => Throw "Unexpected end of JSON input"
  end.

Definition literal (word : string) (v : JValue) (s : string) : Result (JValue * string) :=
  if String.prefix word s
  then Ok (v, String.substring (String.length word) (String.length s - String.length word) s)
  else Throw "Unexpected token in JSON".

Fixpoint value (fuel : nat) (s : string) : Result (JValue * string) :=
  match fuel with
  | 0 => Throw "Nesting too deep"
  | S fuel =>
      match skip_white s with
      | EmptyString => Throw "Unexpected end of JSON input"
      | String c rest =>
          if Ascii.eqb c "[" then
            match skip_white rest with
            | String "]" rest' => Ok (JArr [], rest')
            | _ => elements fuel rest []
            end
          else if Ascii.eqb c "{" then
            match skip_white rest with
            | String "}" rest' => Ok (JObj [], rest')
            | _ => members fuel rest []
            end
          else if Ascii.eqb c Js.quote then
            bind (string_body rest) (fun r => Ok (JStr (fst r), snd r))
          else if Ascii.eqb c "-" then
            bind (natural rest) (fun r => Ok (JNum (- Z.of_N (fst r)), snd r))
          else if is_digit c then
            bind (natural (String c rest)) (fun r => Ok (JNum (Z.of_N (fst r)), snd r))
          else if Ascii.eqb c "t" then literal "true" (JBool true) (String c rest)
          else if Ascii.eqb c "f" then literal "false" (JBool false) (String c rest)
          else if Ascii.eqb c "n" then literal "null" JNull (String c rest)
          else Throw "Unexpected token in JSON"
      end
  end
with elements (fuel : nat) (s : string) (acc : list JValue) : Result (JValue * string) :=
  match fuel with
  | 0 => Throw "Nesting too deep"
  | S fuel =>
      bind (value fuel s) (fun r =>
        match skip_white (snd r) with
        | String "," rest => elements fuel rest (acc ++ [fst r])
        | String "]" rest => Ok (JArr (acc ++ [fst r]), rest)
        | _ => Throw "Expected a comma or the end of the array in JSON"
        end)
  end
with members (fuel : nat) (s : string) (acc : list (string * JValue))
  : Result (JValue * string) :=
  match fuel with
  | 0 => Throw "Nesting too deep"
  | S fuel =>
      match skip_white s with
      | String c rest =>
          if Ascii.eqb c Js.quote then
            bind (string_body rest) (fun k =>
              match skip_white (snd k) with
              | String ":" rest' =>
                  bind (value fuel rest') (fun r =>
                    match skip_white (snd r) with
                    | String "," rest'' =>
                        members fuel rest'' (obj_set (fst k) (fst r) acc)
                    | String "}" rest'' =>
                        Ok (JObj (obj_set (fst k) (fst r) acc), rest'')
                    | _ => Throw "Expected a comma or the end of the object in JSON"
                    end)
              | _ => Throw "Expected a colon after property name in JSON"
              end)
          else Throw "Expected a property name in JSON"
      | EmptyString => Throw "Unexpected end of JSON input"
      end
  end.

Definition parse (text : string) : Result JValue :=
  bind (value (2 * String.length text + 2) text) (fun r =>
    match skip_white (snd r) with
    | EmptyString => Ok (fst r)
    | _ => Throw "Unexpected non-whitespace character after JSON"
    end).

End Json.

(** The reference platform.  Its [yaml] functions cover the documents of
    YAML that are JSON texts (flow style), which the package reads to the
    same values. *)
Definition reference_platform : Platform :=
  {| JSON_parse := Json.parse;
     JSON_stringify := Json.stringify;
     yaml_parse := Json.parse;
     yaml_parseAllDocuments := fun text =>
       match Json.parse text with
       | Ok v => [{| yd_errors := []; yd_toJSON := v |}]
       | Throw e => [{| yd_errors := [e]; yd_toJSON := JNull |}]
       end;
     yaml_stringify := fun v indent => Ok (Json.stringify v indent +:+ Js.nl);
     Date_toISOString := "2024-01-01T00:00:00.000Z" |}.

(** ** Sample inputs

    Concrete paths, stores and options on which the statements below are
    run. *)

(** The suffixes [detectFormat] tells apart. *)
Definition recognized : list string := ["json"; "jsonl"; "csv"; "yaml"; "yml"].

(** A string between two quote characters. *)
Definition q (s : string) : string :=
  String Js.quote s +:+ String Js.quote EmptyString.

Definition empty_remote : Remote :=
  {| files := ∅; failing := ∅; counter := 0; calls := [] |}.

Definition remote_of (entries : list (string * File)) : Remote :=
  {| files := list_to_map entries; failing := ∅; counter := 0; calls := [] |}.

Definition plain_conversion : ConversionOptions :=
  {| base := default_format_options;
     sourceFormat := "json";
     targetFormat := "json";
     fieldMapping := None;
     filter := None;
     transform := None |}.

(** Two line-delimited records under a path with an unrecognized suffix. *)
Definition jsonl_options : ConversionOptions :=
  with_formats plain_conversion "jsonl" "jsonl".

Definition notes_content : string :=
  Json.stringify (JObj [("a", JNum 1)]) 0 +:+ Js.nl
  +:+ Json.stringify (JObj [("a", JNum 2)]) 0 +:+ Js.nl.

Definition notes_remote : Remote :=
  remote_of [("notes.txt", {| content := notes_content; sha := Some "s1" |})].

(** The tabular example of the specification, and a field that holds a
    quote character. *)
Definition csv_example : string :=
  "id,name" +:+ Js.nl +:+ "1,Alice" +:+ Js.nl +:+ "2," +:+ q "B,ob".

Definition quoting_name : string := "a" +:+ String Js.quote "b".

Definition quoting_document : Document := JObj [("name", JStr quoting_name)].

Definition quoting_csv : string :=
  "name" +:+ Js.nl +:+ q ("a" +:+ String Js.quote (String Js.quote "b")) +:+ Js.nl.

Definition multiline_document : Document :=
  JObj [("id", JStr "1"); ("note", JStr ("x" +:+ Js.nl +:+ "y"))].




Definition move_everything : TransferOptions :=
  {| predicate := fun _ => true; conversion := None; transfer_transform := None |}.

(** The lock key of a call in flight. *)
Definition key_of (p : string * string) : string := lockKey (fst p) (snd p).

(** What holds of the lock table between events: the locked keys are those
    of the calls in flight, no two of which share a key. *)
Definition engine_consistent (e : Engine) : Prop :=
  (forall k, locked (transactionLock e) k = true <-> In k (map key_of (in_flight e)))
  /\ NoDup (map key_of (in_flight e)).

(** The line-delimited example of the specification: two users, and the
    predicate [age > bound]. *)
Definition user (id age : Z) : Document := JObj [("id", JNum id); ("age", JNum age)].

Definition older_than (bound : Z) (doc : Document) : bool :=
  match get_prop doc "age" with
  | Some (JNum age) => Z.ltb bound age
  | _ => false
  end.

Definition users_jsonl : string :=
  Json.stringify (user 1 30) 0 +:+ Js.nl +:+ Json.stringify (user 2 20) 0 +:+ Js.nl.

Definition users_remote : Remote :=
  remote_of [("users.jsonl", {| content := users_jsonl; sha := Some "s1" |})].

Definition move_older_than (bound : Z) : TransferOptions :=
  {| predicate := older_than bound; conversion := None; transfer_transform := None |}.

(** The same two users in a whole-document file, and transfers that carry
    conversion options: a renaming of [id], or a filter. *)
Definition users_json_remote : Remote :=
  remote_of
    [("users.json",
      {| content := Json.stringify (JArr [user 1 30; user 2 20]) 2; sha := Some "s1" |})].

Definition renaming : ConversionOptions :=
  {| base := default_format_options;
     sourceFormat := "json";
     targetFormat := "json";
     fieldMapping := Some [("identifier", "id")];
     filter := None;
     transform := None |}.

Definition filtering : ConversionOptions :=
  {| base := default_format_options;
     sourceFormat := "json";
     targetFormat := "json";
     fieldMapping := None;
     filter := Some (older_than 25);
     transform := None |}.

Definition move_converting (conv : ConversionOptions) : TransferOptions :=
  {| predicate := older_than 25; conversion := Some conv; transfer_transform := None |}.

Definition source_after (conv : ConversionOptions) : option string :=
  let '(_, _, r) :=
    @transfer reference_platform "users.json" "seniors.json"
      (move_converting conv) ∅ users_json_remote in
  content <$> files r !! "users.json".

(** The journal of writes that ran to their end, with their outcomes. *)
Definition completed (done : list (QueuedWrite * Result unit)) : list Mark :=
  flat_map (fun wo => [Started (fst wo); Finished (fst wo) (snd wo)]) done.

(** What holds of a manager between events, [subs] being the writes
    submitted so far: the journal is the writes done, each started and
    finished in turn, then the write in progress if there is one; done,
    in progress and queued writes make up the submissions in order; at most
    one activation of the drain loop exists; when no drain is in progress
    nothing is queued; and a drain is in progress without an activation
    only after a write has failed. *)
Definition queue_invariant (m : StorageManager) (subs : list QueuedWrite) : Prop :=
  exists done,
    journal m = completed done ++ map (fun d => Started (running d)) (drains m)
    /\ map fst done ++ map running (drains m) ++ writeQueue m = subs
    /\ length (drains m) <= 1
    /\ (isProcessingQueue m = false -> drains m = [] /\ writeQueue m = [])
    /\ (isProcessingQueue m = true -> drains m = [] ->
        exists w e, In (Finished w (Throw e)) (journal m)).

(** Four writes to four paths, the last three enqueued while the first is
    between its read and its write. *)
Definition write_to (path text : string) : QueuedWrite :=
  {| qw_path := path; qw_content := text; qw_message := "Write document: " +:+ path;
     qw_append := false |}.


(** Writes of other clients, applied to the store in turn. *)
Definition externals (writes : list (string * string)) (r : Remote) : Remote :=
  fold_left (fun acc pc => store_file (fst pc) (snd pc) acc) writes r.

Definition external_events (writes : list (string * string)) : list QueueEvent :=
  map (fun pc => External (fst pc) (snd pc)) writes.

Definition with_store (r : Remote) (m : StorageManager) : StorageManager :=
  {| writeQueue := writeQueue m; isProcessingQueue := isProcessingQueue m;
     drains := drains m; futures := futures m; journal := journal m; store := r |}.

(** A write enqueued behind another, and a conflicting write of another
    client between its read and its update. *)
Definition b_remote : Remote :=
  remote_of [("b.json", {| content := "old"; sha := Some "s1" |})].

Definition conflict_events : list QueueEvent :=
  [Enqueue 1 (write_to "a.json" "1");
   Enqueue 2 (write_to "b.json" "2");
   ReadDone 0; WriteDone 0;
   ReadDone 0; External "b.json" "other"; WriteDone 0].

(** Malformed contents: a truncated object; a line-delimited file whose
    third line, after an empty one, is no JSON text; a tabular file whose
    record has one value more than the header. *)
Definition truncated_json : string := "{".

Definition broken_jsonl : string :=
  Json.stringify (user 1 30) 0 +:+ Js.nl +:+ Js.nl +:+ "{oops".

Definition ragged_csv : string := "a,b" +:+ Js.nl +:+ "1,2,3".

Definition broken_source_remote : Remote :=
  remote_of
    [("users.json", {| content := truncated_json; sha := Some "s1" |})].

Definition broken_dest_remote : Remote :=
  remote_of
    [("users.jsonl", {| content := users_jsonl; sha := Some "s1" |});
     ("seniors.json", {| content := truncated_json; sha := Some "d1" |})].

(** A string of white space only: what [trim] empties. *)
Fixpoint all_white (s : string) : bool :=
  match s with
  | EmptyString => true
  | String c rest => Js.is_white c && all_white rest
  end.





(** A write that fails (the file appears between its read and its
    creation), then two more enqueues and a flush. *)
Definition after_failure : list QueueEvent :=
  [Enqueue 1 (write_to "a.json" "1"); ReadDone 0; External "a.json" "other"; WriteDone 0].

Definition later_events : list QueueEvent :=
  [Enqueue 2 (write_to "b.json" "2"); Flush 3; Enqueue 4 (write_to "c.json" "3")].

(** Both sides present with current revisions. *)
Definition both_present_state : TransactionState :=
  {| sourcePath := "users.json";
     destPath := "archive.json";
     sourceContent := "[]";
     destContent := "[1]";
     sourceSha := Some "s1";
     destSha := Some "d1" |}.

Definition both_present_remote : Remote :=
  remote_of [("users.json", {| content := "[1]"; sha := Some "s1" |});
             ("archive.json", {| content := "[]"; sha := Some "d1" |})].

Definition source_only_state : TransactionState :=
  {| sourcePath := "users.json";
     destPath := "archive.json";
     sourceContent := "[]";
     destContent := "[1]";
     sourceSha := Some "s1";
     destSha := None |}.

Definition source_only_remote : Remote :=
  remote_of [("users.json", {| content := "[1]"; sha := Some "s1" |})].

(** The manager after the failed write, and after the later events. *)
Definition stalled : StorageManager :=
  default (new_manager empty_remote)
    (queue_run (new_manager empty_remote) after_failure).

Definition stalled_later : StorageManager :=
  default stalled (queue_run stalled later_events).

(** Closes the conjuncts of [queue_invariant] that hold outright. *)
Ltac close_invariant :=
  repeat match goal with
         | |- _ /\ _ => split
         | |- _ -> _ => intro
         end;
  auto; try congruence.

(** The source was rewritten by another client after it was read: its
    revision is no longer the one the commit holds. *)
Definition stale_source_remote : Remote :=
  remote_of [("users.json", {| content := "[1,2]"; sha := Some "s2" |});
             ("archive.json", {| content := "[]"; sha := Some "d1" |})].

(** ** query/QueryEngine.ts *)

(** Truthiness of a value. *)
Definition truthy_value (v : JValue) : bool :=
  match v with
  | JNull => false
  | JBool b => b
  | JNum n => negb (Z.eqb n 0)
  | JStr s => Js.truthy s
  | JArr _ | JObj _ => true
  end.

Module QueryEngine.

Definition filter (documents : list Document) (predicate : Document -> bool)
  : list Document :=
  List.filter predicate documents.

(** [documents.find(predicate) || null], [None] standing for [null]. *)
Definition findOne (documents : list Document) (predicate : Document -> bool)
  : option Document :=
  match List.find predicate documents with
  | Some doc => if truthy_value doc then Some doc else None
  | None => None
  end.

(** [documents.slice(0, count)] for an integer [count]: a negative count is
    taken from the end of the array. *)
Definition limit (documents : list Document) (count : Z) : list Document :=
  let len := Z.of_nat (length documents) in
  let final := if Z.ltb count 0 then Z.max (len + count) 0 else Z.min count len in
  firstn (Z.to_nat final) documents.

End QueryEngine.

(** ** shard/ShardManager.ts *)

Module ShardManager.



Definition getShardPath (shardKey : string) : string :=
  "shards/" +:+ shardKey +:+ ".json".

End ShardManager.

(** ** crypto/HashManager.ts

    The cipher of the [crypto] module is not part of the repository: the
    manager is defined over any implementation of it, under the key the
    manager derives once.  [encrypt iv data] is the text [cipher.update]
    and [cipher.final] give in hexadecimal for the vector [iv], itself
    written in hexadecimal; it throws when [data] is no string.
    [decrypt iv text] is the way back, which throws on a vector or a text it
    cannot read. *)

Class Crypto : Type := {
  encrypt : string -> JValue -> Result string;
  decrypt : string -> string -> Result string
}.

Definition colon : ascii := ascii_of_nat 58.

Module HashManager.

Section HashManager.

Context `{Crypto}.

(** [hash(value)], [iv] being the vector [crypto.randomBytes(16)] draws in
    this call. *)
Definition hash (iv : string) (value : JValue) : Result string :=
  bind (encrypt iv value) (fun encrypted => Ok (iv +:+ ":" +:+ encrypted)).

Definition unhash (encryptedData : string) : Result string :=
  let parts := Js.split colon encryptedData in
  if negb (Nat.eqb (length parts) 2) then Throw "Invalid encrypted data format"
  else decrypt (nth 0 parts EmptyString) (nth 1 parts EmptyString).

End HashManager.

End HashManager.

(** ** types.ts *)

Record OperationOptions : Type := {
  hashFields : option (list string);
  unhashFields : option (list string);
  format : option string
}.

(** ** storage/StorageManager.ts: documents and collections *)

(** [{ ...v }] *)
Definition spread (v : JValue) : list (string * JValue) :=
  fold_left (fun acc kv => obj_set (fst kv) (snd kv) acc) (own_entries v) [].

Module Storage.

Section Storage.

Context `{Platform} `{Crypto}.

Local Open Scope api_scope.

(** The loop of [processDataBeforeWrite]; [iv n] is the vector drawn by the
    call of [hash] that follows [n] others. *)
Fixpoint hash_fields (iv : nat -> string) (n : nat) (fields : list string)
  (processed : list (string * JValue)) : Result (list (string * JValue)) :=
  match fields with
  | [] => Ok processed
  | field :: rest =>
      match obj_get field processed with
      | Some value =>
          if truthy_value value then
            bind (HashManager.hash (iv n) value) (fun hashed =>
              hash_fields iv (S n) rest (obj_set field (JStr hashed) processed))
          else hash_fields iv n rest processed
      | None => hash_fields iv n rest processed
      end
  end.

Definition processDataBeforeWrite (iv : nat -> string) (data : Document)
  (hashFields : option (list string)) : Result Document :=
  match hashFields with
  | None | Some [] => Ok (JObj (spread data))
  | Some fields =>
      bind (hash_fields iv 0 fields (spread data)) (fun processed => Ok (JObj processed))
  end.

(** The loop of [processDataAfterRead]; a value that is no string has no
    [split] to call. *)
Fixpoint unhash_fields (fields : list string) (processed : list (string * JValue))
  : Result (list (string * JValue)) :=
  match fields with
  | [] => Ok processed
  | field :: rest =>
      match obj_get field processed with
      | Some value =>
          if truthy_value value then
            bind (match value with
                  | JStr text => HashManager.unhash text
                  | _ => Throw "encryptedData.split is not a function"
                  end)
              (fun clear => unhash_fields rest (obj_set field (JStr clear) processed))
          else unhash_fields rest processed
      | None => unhash_fields rest processed
      end
  end.

Definition processDataAfterRead (data : Document) (unhashFields : option (list string))
  : Result Document :=
  match unhashFields with
  | None | Some [] => Ok data
  | Some fields =>
      bind (unhash_fields fields (spread data)) (fun processed => Ok (JObj processed))
  end.

(** [options?.format || (path.endsWith('.jsonl') ? 'jsonl' : 'json')] *)
Definition getFormat (path : string) (options : option OperationOptions) : string :=
  let detected := if Js.endsWith ".jsonl" path then "jsonl" else "json" in
  match options ≫= format with
  | Some chosen => if Js.truthy chosen then chosen else detected
  | None => detected
  end.

Definition serializeContent (data : JValue) (format : string) : string :=
  if String.eqb format "jsonl" then
    match data with
    | JArr items => Js.join Js.nl (map (fun item => JSON_stringify item 0) items)
    | _ => JSON_stringify data 0
    end
  else JSON_stringify data 2.

Definition parseContent (content : string) (format : string) : Result JValue :=
  if String.eqb format "jsonl" then
    bind (mapM JSON_parse (non_blank_lines content)) (fun documents => Ok (JArr documents))
  else if Js.truthy content then JSON_parse content
  else Ok (JArr []).

Definition readDocument (path : string) (options : option OperationOptions)
  : Api (option Document) :=
  file <- getFile path ;;
  match file with
  | None => ret None
  | Some file =>
      data <- lift (parseContent (content file) (getFormat path options)) ;;
      document <- lift (processDataAfterRead data (options ≫= unhashFields)) ;;
      ret (Some document)
  end.

Definition readCollection (path : string) (options : option OperationOptions)
  : Api (list Document) :=
  file <- getFile path ;;
  match file with
  | None => ret []
  | Some file =>
      documents <- lift (parseContent (content file) (getFormat path options)) ;;
      match documents with
      | JArr items =>
          lift (mapM (fun doc => processDataAfterRead doc (options ≫= unhashFields)) items)
      | _ =>
          document <- lift (processDataAfterRead documents (options ≫= unhashFields)) ;;
          ret [document]
      end
  end.

(** The calls that write.  Each is an asynchronous function that ends in
    [await this.enqueueWrite(...)]: its promise is the one [enqueueWrite]
    settles for [caller], or is rejected before anything is queued. *)
Definition writeDocument (iv : nat -> string) (caller : nat) (path : string)
  (data : Document) (options : option OperationOptions) (m : StorageManager)
  : StorageManager :=
  match processDataBeforeWrite iv data (options ≫= hashFields) with
  | Throw e => settle caller (Throw e) m
  | Ok processedData =>
      enqueueWrite caller
        {| qw_path := path;
           qw_content := serializeContent processedData (getFormat path options);
           qw_message := "Write document: " +:+ path;
           qw_append := false |} m
  end.

Definition writeCollection (caller : nat) (path : string) (documents : list Document)
  (m : StorageManager) : StorageManager :=
  enqueueWrite caller
    {| qw_path := path;
       qw_content := serializeContent (JArr documents) (getFormat path None);
       qw_message := "Write collection: " +:+ path;
       qw_append := false |} m.

(** Both [catch] blocks of the append test [error.response.status === 404]
    and throw the error again otherwise.  No error raised below carries a
    [response] (the wrapper of the remote store, [JSON.parse] and the cipher
    throw plain errors), so the error is thrown again. *)
Definition handleJsonAppend (path : string) (newData : Document) : Api string :=
  catch
    (existing <- readCollection path None ;;
     ret (serializeContent (JArr (existing ++ [newData])) "json"))
    (fun message => throw message).

(** What [appendToCollection] queues: the data as one line, or the text
    [handleJsonAppend] returns. *)
Definition append_line (path : string) (processedData : Document) (format : string)
  : Api string :=
  getFile path ;;
  if String.eqb format "jsonl" then ret (JSON_stringify processedData 0 +:+ Js.nl)
  else handleJsonAppend path processedData.

(** A call of [appendToCollection] that no other task overlaps between its
    start and the queueing of its write: the reads it awaits see the store
    as it is when the call starts. *)
Definition appendToCollection (iv : nat -> string) (caller : nat) (path : string)
  (data : Document) (options : option OperationOptions) (m : StorageManager)
  : StorageManager :=
  match processDataBeforeWrite iv data (options ≫= hashFields) with
  | Throw e => settle caller (Throw e) m
  | Ok processedData =>
      match fst (append_line path processedData (getFormat path options) (store m)) with
      | Throw e => settle caller (Throw e) m
      | Ok line =>
          enqueueWrite caller
            {| qw_path := path;
               qw_content := line;
               qw_message := "Append to collection: " +:+ path;
               qw_append := true |} m
      end
  end.

End Storage.

End Storage.

(** ** transaction/TransactionEngine.ts: the consistency check *)

Section Consistency.

Context `{Platform} `{Crypto}.

(** [this.storage.readCollection(path).catch(() => [])] *)
Definition read_or_empty (path : string) (r : Remote) : list Document :=
  match fst (Storage.readCollection path None r) with
  | Ok documents => documents
  | Throw _ => []
  end.

Definition verifyConsistency (sourcePath destPath : string) (predicate : Document -> bool)
  : Api bool :=
  fun r =>
    let sourceDocs := read_or_empty sourcePath r in
    let destDocs := read_or_empty destPath r in
    let sourceMatches := List.filter predicate sourceDocs in
    let destMatches := List.filter predicate destDocs in
    (Ok (Nat.eqb (length sourceMatches) 0), r).

End Consistency.

(** ** The collection operations of [GitHubDB]

    The operations are those of an instance that [initialize] has accepted:
    [ensureInitialized] returns at once.  [config_format] is the [format]
    of the configuration. *)

Module GitHubDB.

Section GitHubDB.

Context `{Platform} `{Crypto}.

Local Open Scope api_scope.

(** [path.startsWith('/') ? path.substring(1) : path] *)
Definition normalizePath (path : string) : string :=
  match path with
  | String c rest => if Ascii.eqb c "/" then rest else path
  | EmptyString => path
  end.

Definition getCollection (collectionPath : string) (options : option OperationOptions)
  : Api (list Document) :=
  let fullPath := normalizePath collectionPath in
  catch (Storage.readCollection fullPath options)
    (fun message =>
       throw ("Failed to get collection " +:+ collectionPath +:+ ": " +:+ message)).

Definition query (collectionPath : string) (predicate : Document -> bool)
  : Api (list Document) :=
  let fullPath := normalizePath collectionPath in
  catch
    (documents <- getCollection fullPath None ;;
     ret (QueryEngine.filter documents predicate))
    (fun message =>
       throw ("Failed to query collection " +:+ collectionPath +:+ ": " +:+ message)).

Definition remove (config_format : option string) (collectionPath : string)
  (predicate : Document -> bool) : Api unit :=
  let fullPath := normalizePath collectionPath in
  catch
    (documents <- getCollection fullPath None ;;
     let filtered := List.filter (fun doc => negb (predicate doc)) documents in
     let format := match config_format with
                   | Some chosen => if Js.truthy chosen then chosen else "json"
                   | None => "json"
                   end in
     let filePath := fullPath +:+ "." +:+ format in
     currentFile <- getFile filePath ;;
     match currentFile with
     | Some file =>
         if present (sha file) then
           updateFile filePath (JSON_stringify (JArr filtered) 2)
             ("Remove documents matching predicate from " +:+ collectionPath)
             (sha file)
         else throw ("File " +:+ filePath +:+ " not found or missing SHA")
     | None => throw ("File " +:+ filePath +:+ " not found or missing SHA")
     end)
    (fun message =>
       throw ("Failed to remove from collection " +:+ collectionPath +:+ ": " +:+ message)).

End GitHubDB.

End GitHubDB.


(** The formats registered by the constructor of [FormatConverter]. *)
Definition supported : list string := ["json"; "jsonl"; "csv"; "yaml"].

(** A text that stands on a line of its own: it holds no line feed and is
    not blank. *)
Definition one_line (s : string) : Prop :=
  Js.includes Js.newline s = false /\ Js.blank s = false.

(** The sequence a whole-document file is read back as: a sequence made of
    one array comes back as the elements of that array. *)
Definition read_back (documents : list Document) : list Document :=
  match documents with
  | [JArr items] => items
  | _ => documents
  end.

(** A manager at rest: no drain in progress, nothing queued. *)
Definition idle (m : StorageManager) : Prop :=
  isProcessingQueue m = false /\ drains m = [] /\ writeQueue m = [].

(** A queued write run to its end on a manager at rest: the store answers
    its read, then its write. *)
Definition settled_write : list QueueEvent := [ReadDone 0; WriteDone 0].

(** Calls of [appendToCollection] made one after the other, each one
    awaited (its queued write run to its end) before the next is made. *)
Fixpoint append_all `{Platform} `{Crypto} (iv : nat -> string) (path : string)
  (documents : list Document) (m : StorageManager) : option StorageManager :=
  match documents with
  | [] => Some m
  | doc :: rest =>
      match queue_run (Storage.appendToCollection iv 0 path doc None m) settled_write with
      | Some m' => append_all iv path rest m'
      | None => None
      end
  end.

(** A stand-in for the cipher, on which the statements are run: the text
    itself, given back as it is. *)
Definition sample_crypto : Crypto :=
  {| encrypt := fun iv data =>
       match data with
       | JStr text => Ok text
       | _ => Throw "The data argument must be of type string"
       end;
     decrypt := fun iv text => Ok text |}.

Definition no_vector : nat -> string := fun _ => EmptyString.

(** The line [appendToCollection] adds for a document under a
    line-delimited path, and the copy of the document it prints. *)
Definition copy_of (doc : Document) : Document := JObj (spread doc).

Definition jsonl_line `{Platform} (doc : Document) : string :=
  JSON_stringify (copy_of doc) 0 +:+ Js.nl.

(** A collection of one user kept as a whole-document file. *)
Definition one_user_remote : Remote :=
  remote_of
    [("users.json",
      {| content := Json.stringify (JArr [user 1 30]) 2; sha := Some "s1" |})].

(** The store after a second user was appended to that collection. *)
Definition after_json_append : Remote :=
  store
    (default (new_manager one_user_remote)
       (queue_run
          (@Storage.appendToCollection reference_platform sample_crypto no_vector 1
             "users.json" (user 2 20) None (new_manager one_user_remote))
          settled_write)).





(** ** Properties *)

(** *** Strings *)

Lemma sapp_nil_l (a : string) : EmptyString +:+ a = a.
Proof. reflexivity. Qed.

Lemma sapp_cons (x : ascii) (a b : string) : String x a +:+ b = String x (a +:+ b).
Proof. reflexivity. Qed.

Lemma sapp_assoc (a b c : string) : (a +:+ b) +:+ c = a +:+ (b +:+ c).
Proof.
  induction a as [|x a IH]; [reflexivity|]. rewrite !sapp_cons, IH. reflexivity.
Qed.

Lemma sapp_nil_r (a : string) : a +:+ EmptyString = a.
Proof.
  induction a as [|x a IH]; [reflexivity|]. rewrite sapp_cons, IH. reflexivity.
Qed.

Lemma split_no_separator (sep : ascii) (s : string) :
  Js.includes sep s = false -> Js.split sep s = [s].
Proof.
  induction s as [|c rest IH]; simpl; [reflexivity|].
  intros Hinc. apply orb_false_iff in Hinc as [Hc Hrest].
  rewrite Hc, (IH Hrest). reflexivity.
Qed.

Lemma split_snoc (sep : ascii) (pre ext : string) :
  Js.includes sep ext = false ->
  exists h t, Js.split sep (pre +:+ String sep ext) = h :: t ++ [ext].
Proof.
  intros Hext. induction pre as [|c pre IH]; simpl.
  - rewrite Ascii.eqb_refl, (split_no_separator _ _ Hext).
    exists EmptyString, []. reflexivity.
  - destruct IH as (h & t & IH). rewrite IH.
    destruct (Ascii.eqb c sep).
    + exists EmptyString, (h :: t). reflexivity.
    + exists (String c h), t. reflexivity.
Qed.

Lemma extension_of_suffix (pre ext : string) :
  Js.includes Js.dot ext = false ->
  extension (pre +:+ String Js.dot ext) = Some (Js.toLowerCase ext).
Proof.
  intros Hext. unfold extension, Js.pop.
  destruct (split_snoc Js.dot pre ext Hext) as (h & t & ->).
  rewrite app_comm_cons, last_snoc. reflexivity.
Qed.

(** *** Format detection *)

Section Detection.

Context `{Platform}.

Lemma detectFormat_unrecognized (pre ext : string) :
  Js.includes Js.dot ext = false ->
  ~ In (Js.toLowerCase ext) recognized ->
  detectFormat (pre +:+ String Js.dot ext) = "json".
Proof.
  intros Hext Hnot. unfold detectFormat.
  rewrite (extension_of_suffix _ _ Hext).
  repeat match goal with
         | |- context [String.eqb ?a ?b] =>
             destruct (String.eqb_spec a b) as [Heq|_];
             [exfalso; apply Hnot; rewrite Heq; simpl; tauto|]
         end.
  reflexivity.
Qed.

Lemma getFormatter_json : getFormatter "json" = Ok JSONFormatter.
Proof. reflexivity. Qed.

(** C10 (as amended): a path whose suffix after the last dot is none of
    json, jsonl, csv, yaml, yml in any letter case is detected as [json]; a
    transfer then reads and writes that side with the array-or-scalar codec
    ([JSONFormatter]).  [convertFormat] detects nothing: the codecs it uses
    are those its options name, whatever the two paths are. *)
Theorem unrecognized_suffix_is_json (pre ext : string) :
  Js.includes Js.dot ext = false ->
  ~ In (Js.toLowerCase ext) recognized ->
  let path := pre +:+ String Js.dot ext in
  detectFormat path = "json"
  /\ getFormatter (detectFormat path) = Ok JSONFormatter
  /\ (forall other options r,
        executeAtomicTransfer path other options r
        = transfer_settled "json" (detectFormat other) path other options
            (read r path) (read r other) r
        /\ executeAtomicTransfer other path options r
           = transfer_settled (detectFormat other) "json" other path options
               (read r other) (read r path) r)
  /\ (forall file,
        parseFileContent (Fulfilled (Some file)) (detectFormat path)
        = if Js.blank (content file) then []
          else match JSONFormatter_parse (content file) default_format_options with
               | Ok documents => documents
               | Throw _ => []
               end)
  /\ (forall docs,
        serializeContent docs (detectFormat path)
        = JSONFormatter_serialize docs default_format_options)
  /\ (forall other options r file,
        read r path = Fulfilled (Some file) ->
        convertFormat path other options r
        = match convertContent (content file) options with
          | Ok converted =>
              createFile other converted
                ("Convert format: " +:+ path +:+ " -> " +:+ other) r
          | Throw e => (Throw e, r)
          end).
Proof.
  intros Hext Hnot path.
  assert (Hjson : detectFormat path = "json")
    by exact (detectFormat_unrecognized pre ext Hext Hnot).
  repeat split.
  - exact Hjson.
  - rewrite Hjson. reflexivity.
  - unfold executeAtomicTransfer. rewrite Hjson. reflexivity.
  - unfold executeAtomicTransfer. rewrite Hjson. reflexivity.
  - intros file. rewrite Hjson. reflexivity.
  - intros docs. rewrite Hjson. reflexivity.
  - intros other options r file Hread.
    unfold convertFormat, and_then, getFile. rewrite Hread.
    unfold lift. destruct (convertContent (content file) options); reflexivity.
Qed.

End Detection.

Section DetectionRuns.

Existing Instance reference_platform.

Lemma unrecognized_suffix_is_json_witness :
  detectFormat "notes.txt" = "json"
  /\ getFormatter (detectFormat "notes.txt") = Ok JSONFormatter.
Proof.
  assert (Hno : ~ In (Js.toLowerCase "txt") recognized)
    by (vm_compute; intuition discriminate).
  pose proof (unrecognized_suffix_is_json "notes" "txt" eq_refl Hno) as (H1 & H2 & _).
  split; [exact H1 | exact H2].
Defined.

(** C10, counterexample: under a path detected as [json], [convertFormat]
    with options naming [jsonl] reads the file line by line and succeeds,
    where the array-or-scalar codec rejects the same content. *)
Lemma convertFormat_ignores_suffix :
  detectFormat "notes.txt" = "json"
  /\ detectFormat "out.txt" = "json"
  /\ fst (convertFormat "notes.txt" "out.txt" jsonl_options notes_remote) = Ok tt
  /\ content <$> files (snd (convertFormat "notes.txt" "out.txt" jsonl_options notes_remote))
       !! "out.txt" = Some notes_content
  /\ fst (convertFormat "notes.txt" "out.txt"
            (with_formats jsonl_options "json" "json") notes_remote)
     = Throw "Invalid JSON format: Unexpected non-whitespace character after JSON".
Proof. vm_compute. repeat split. Qed.

End DetectionRuns.

(** *** The tabular codec *)

Lemma csv_example_parses :
  CSVFormatter_parse csv_example default_format_options
  = Ok [JObj [("id", JStr "1"); ("name", JStr "Alice")];
        JObj [("id", JStr "2"); ("name", JStr "B,ob")]].
Proof. reflexivity. Qed.

Lemma escapeCSV_doubles_quotes :
  CSVFormatter_serialize [quoting_document] default_format_options = Ok quoting_csv.
Proof. reflexivity. Qed.

(** C7: the codec reads the example of the specification as stated and
    writes a quote character doubled inside a quoted field, but reading
    does not undo the doubling: every quote character only toggles
    [inQuotes] and is dropped, so the field a, quote, b comes back as ab;
    and a line feed inside a quoted field ends the record, since the
    content is split into lines before any quote is looked at. *)
Theorem csv_quote_doubling_not_undone :
  CSVFormatter_parse csv_example default_format_options
  = Ok [JObj [("id", JStr "1"); ("name", JStr "Alice")];
        JObj [("id", JStr "2"); ("name", JStr "B,ob")]]
  /\ CSVFormatter_serialize [quoting_document] default_format_options = Ok quoting_csv
  /\ CSVFormatter_parse quoting_csv default_format_options
     = Ok [JObj [("name", JStr "ab")]]
  /\ bind (CSVFormatter_serialize [multiline_document] default_format_options)
       (fun text => CSVFormatter_parse text default_format_options)
     = Ok [JObj [("id", JStr "1"); ("note", JStr "x")];
           JObj [("id", JStr "y"); ("note", JStr EmptyString)]].
Proof. repeat split. Qed.

(** *** The commit *)

Section Commit.

Local Open Scope api_scope.

(** The text every failure of the commit is wrapped in. *)
Lemma atomicCommit_shapes (state : TransactionState) (movedCount : nat) (r : Remote) :
  let message :=
    "Transfer: Moved " +:+ pretty movedCount +:+ " documents from "
    +:+ sourcePath state +:+ " to " +:+ destPath state in
  let wrapped (c : Api unit) :=
    catch c (fun m => throw ("Transfer failed: " +:+ m)) in
  atomicCommit state movedCount r
  = if present (sourceSha state) then
      if present (destSha state) then
        wrapped (updateFile (destPath state) (destContent state) message (destSha state) ;;
                 updateFile (sourcePath state) (sourceContent state) message (sourceSha state)) r
      else
        wrapped (createFile (destPath state) (destContent state) message ;;
                 updateFile (sourcePath state) (sourceContent state) message (sourceSha state)) r
    else
      (Throw ("Transfer failed: Source file " +:+ sourcePath state +:+ " does not exist"), r).
Proof.
  intros message wrapped. unfold atomicCommit, updateBothFiles.
  fold message.
  destruct (present (sourceSha state)), (present (destSha state)); simpl;
    try reflexivity.
  unfold wrapped, catch, and_then.
  destruct (updateFile (destPath state) (destContent state) message (destSha state) r)
    as [[[]|e] r1]; simpl; try reflexivity.
  destruct (updateFile (sourcePath state) (sourceContent state) message (sourceSha state) r1)
    as [[[]|e] r2]; reflexivity.
Qed.

Lemma calls_updateFile path text message revision r :
  calls (snd (updateFile path text message revision r))
  = calls r ++ [UpdateFile path text message revision].
Proof.
  unfold updateFile. simpl.
  destruct (files r !! path) as [f|], revision as [rev|]; simpl; try reflexivity.
  destruct (decide (sha f = Some rev)); reflexivity.
Qed.

Lemma calls_createFile path text message r :
  calls (snd (createFile path text message r))
  = calls r ++ [CreateFile path text message].
Proof.
  unfold createFile. simpl. destruct (files r !! path); reflexivity.
Qed.

(** X7: both sides had a revision: the destination is updated first, and the
    source only when that update went through, each with its revision. *)
Lemma commit_both_present (state : TransactionState) (movedCount : nat) (r : Remote) :
  present (sourceSha state) = true ->
  present (destSha state) = true ->
  let message :=
    "Transfer: Moved " +:+ pretty movedCount +:+ " documents from "
    +:+ sourcePath state +:+ " to " +:+ destPath state in
  let first := UpdateFile (destPath state) (destContent state) message (destSha state) in
  let second := UpdateFile (sourcePath state) (sourceContent state) message (sourceSha state) in
  calls (snd (atomicCommit state movedCount r))
  = calls r ++
      match fst (updateFile (destPath state) (destContent state) message (destSha state) r) with
      | Ok _ => [first; second]
      | Throw _ => [first]
      end.
Proof.
  intros Hs Hd message first second.
  rewrite atomicCommit_shapes, Hs, Hd. fold message.
  unfold catch, and_then.
  pose proof (calls_updateFile (destPath state) (destContent state) message (destSha state) r) as H1.
  destruct (updateFile (destPath state) (destContent state) message (destSha state) r)
    as [[[]|e] r1]; simpl in *.
  - pose proof (calls_updateFile (sourcePath state) (sourceContent state) message
                  (sourceSha state) r1) as H2.
    destruct (updateFile (sourcePath state) (sourceContent state) message (sourceSha state) r1)
      as [[[]|e] r2]; simpl in *; rewrite H2, H1, <- app_assoc; reflexivity.
  - exact H1.
Qed.

(** X8: only the source had a revision: the destination is created, then the
    source updated. *)
Lemma commit_source_only (state : TransactionState) (movedCount : nat) (r : Remote) :
  present (sourceSha state) = true ->
  present (destSha state) = false ->
  let message :=
    "Transfer: Moved " +:+ pretty movedCount +:+ " documents from "
    +:+ sourcePath state +:+ " to " +:+ destPath state in
  let first := CreateFile (destPath state) (destContent state) message in
  let second := UpdateFile (sourcePath state) (sourceContent state) message (sourceSha state) in
  calls (snd (atomicCommit state movedCount r))
  = calls r ++
      match fst (createFile (destPath state) (destContent state) message r) with
      | Ok _ => [first; second]
      | Throw _ => [first]
      end.
Proof.
  intros Hs Hd message first second.
  rewrite atomicCommit_shapes, Hs, Hd. fold message.
  unfold catch, and_then.
  pose proof (calls_createFile (destPath state) (destContent state) message r) as H1.
  destruct (createFile (destPath state) (destContent state) message r)
    as [[[]|e] r1]; simpl in *.
  - pose proof (calls_updateFile (sourcePath state) (sourceContent state) message
                  (sourceSha state) r1) as H2.
    destruct (updateFile (sourcePath state) (sourceContent state) message (sourceSha state) r1)
      as [[[]|e] r2]; simpl in *; rewrite H2, H1, <- app_assoc; reflexivity.
  - exact H1.
Qed.

(** The source had no revision: the commit fails and writes nothing,
    whether the destination had one or not. *)
Lemma commit_without_source (state : TransactionState) (movedCount : nat) (r : Remote) :
  present (sourceSha state) = false ->
  atomicCommit state movedCount r
  = (Throw ("Transfer failed: Source file " +:+ sourcePath state +:+ " does not exist"), r).
Proof. intros Hs. rewrite atomicCommit_shapes, Hs. reflexivity. Qed.

End Commit.

Section CommitRuns.

Existing Instance reference_platform.


End CommitRuns.

(** *** The lock table *)

Lemma locked_insert (locks : gmap string bool) (key k : string) :
  locked (<[key := true]> locks) k = true <-> k = key \/ locked locks k = true.
Proof.
  unfold locked. destruct (decide (key = k)) as [->|Hne].
  - rewrite lookup_insert_eq. simpl. tauto.
  - rewrite lookup_insert_ne by exact Hne. split; [tauto|].
    intros [->|Hk]; [contradiction|exact Hk].
Qed.

Lemma locked_delete (locks : gmap string bool) (key k : string) :
  locked (delete key locks) k = true <-> k <> key /\ locked locks k = true.
Proof.
  unfold locked. destruct (decide (key = k)) as [->|Hne].
  - rewrite lookup_delete_eq. simpl. split; [discriminate|]. intros [Hk _]. contradiction.
  - rewrite lookup_delete_ne by exact Hne. split; [|tauto].
    intros Hk. split; [congruence|exact Hk].
Qed.

Lemma transfer_enter_free (s d : string) (locks : gmap string bool) :
  locked locks (lockKey s d) = false ->
  transfer_enter s d locks = (Ok tt, <[lockKey s d := true]> locks).
Proof. intros Hfree. unfold transfer_enter. rewrite Hfree. reflexivity. Qed.

Lemma transfer_enter_held (s d : string) (locks : gmap string bool) :
  locked locks (lockKey s d) = true ->
  transfer_enter s d locks
  = (Throw ("Transaction already in progress for " +:+ lockKey s d), locks).
Proof. intros Hheld. unfold transfer_enter. rewrite Hheld. reflexivity. Qed.

(** Of two calls for one pair, the second is refused while the first is in
    flight. *)
Lemma second_identical_call_refused (s d : string) (locks : gmap string bool) :
  locked locks (lockKey s d) = false ->
  fst (transfer_enter s d (snd (transfer_enter s d locks)))
  = Throw ("Transaction already in progress for " +:+ lockKey s d).
Proof.
  intros Hfree. rewrite (transfer_enter_free _ _ _ Hfree). simpl.
  rewrite transfer_enter_held; [reflexivity|].
  apply locked_insert. left. reflexivity.
Qed.

(** The [finally] block frees the key, so the pair can be entered again. *)
Lemma released_after_exit (s d : string) (locks : gmap string bool) :
  fst (transfer_enter s d (transfer_exit s d locks)) = Ok tt.
Proof.
  rewrite transfer_enter_free; [reflexivity|].
  unfold transfer_exit.
  destruct (locked (delete (lockKey s d) locks) (lockKey s d)) eqn:Hk; [|reflexivity].
  apply locked_delete in Hk as [Hne _]. contradiction.
Qed.

Lemma pair_eqb_eq (p q : string * string) : pair_eqb p q = true <-> p = q.
Proof.
  destruct p as [a b], q as [c d]. unfold pair_eqb. simpl.
  rewrite andb_true_iff, !String.eqb_eq. split.
  - intros [-> ->]. reflexivity.
  - intros [= -> ->]. split; reflexivity.
Qed.

Lemma remove_first_split (p : string * string) (l : list (string * string)) :
  existsb (pair_eqb p) l = true ->
  exists l1 l2, l = l1 ++ p :: l2 /\ remove_first p l = l1 ++ l2.
Proof.
  induction l as [|x l IH]; simpl; [discriminate|].
  destruct (pair_eqb p x) eqn:Hpx.
  - intros _. apply pair_eqb_eq in Hpx as <-. exists [], l. split; reflexivity.
  - simpl. intros Hex. destruct (IH Hex) as (l1 & l2 & -> & Hrm).
    exists (x :: l1), l2. rewrite Hrm. split; reflexivity.
Qed.

Lemma engine_step_consistent (e e' : Engine) (ev : TransferEvent) :
  engine_consistent e -> engine_step e ev = Some e' -> engine_consistent e'.
Proof.
  intros [Hlocked Hnodup] Hstep. destruct ev as [s d|s d]; simpl in Hstep.
  - unfold transfer_enter in Hstep.
    destruct (locked (transactionLock e) (lockKey s d)) eqn:Hk;
      injection Hstep as <-; split; simpl; try assumption.
    + intros k. rewrite locked_insert, map_app, in_app_iff, Hlocked. simpl.
      unfold key_of at 2. simpl. intuition.
    + rewrite map_app. simpl. apply NoDup_app. repeat split.
      * exact Hnodup.
      * intros k Hin. rewrite list_elem_of_In in Hin.
        apply Hlocked in Hin. intros Hk'. apply list_elem_of_singleton in Hk'.
        unfold key_of in Hk'. simpl in Hk'. subst k. congruence.
      * apply NoDup_singleton.
  - destruct (existsb (pair_eqb (s, d)) (in_flight e)) eqn:Hex; [|discriminate].
    injection Hstep as <-.
    destruct (remove_first_split _ _ Hex) as (l1 & l2 & Hl & Hrm).
    rewrite Hl in Hnodup, Hlocked. rewrite map_app in Hnodup, Hlocked.
    simpl in Hnodup, Hlocked.
    apply NoDup_app in Hnodup as (Hn1 & Hdisj & Hn2).
    apply NoDup_cons in Hn2 as [Hnotin2 Hn2].
    split; simpl; rewrite Hrm, map_app.
    + intros k. unfold transfer_exit. rewrite locked_delete, Hlocked.
      rewrite !in_app_iff. simpl. unfold key_of at 2. simpl.
      split.
      * intros [Hne [H1|[Heq|H2]]]; [left; exact H1|congruence|right; exact H2].
      * intros [H1|H2]; split.
        -- intros ->. apply (Hdisj (lockKey s d)).
           ++ apply list_elem_of_In. exact H1.
           ++ left.
        -- left. exact H1.
        -- intros ->. apply Hnotin2. apply list_elem_of_In. exact H2.
        -- right. right. exact H2.
    + apply NoDup_app. repeat split; try assumption.
      intros k Hk1 Hk2. apply (Hdisj k Hk1). right. exact Hk2.
Qed.

Lemma engine_run_consistent (evs : list TransferEvent) (e e' : Engine) :
  engine_consistent e -> engine_run e evs = Some e' -> engine_consistent e'.
Proof.
  revert e. induction evs as [|ev evs IH]; simpl; intros e Hc Hrun.
  - injection Hrun as <-. exact Hc.
  - destruct (engine_step e ev) as [e1|] eqn:Hstep; [|discriminate].
    exact (IH e1 (engine_step_consistent _ _ _ Hc Hstep) Hrun).
Qed.

Lemma new_engine_consistent : engine_consistent new_engine.
Proof.
  split; simpl.
  - intros k. unfold locked. rewrite lookup_empty. simpl. split; [discriminate|tauto].
  - constructor.
Qed.

(** X6: however calls overlap, a call is let in exactly when no call in flight
    has its lock key. *)
Lemma entered_iff_key_free (evs : list TransferEvent) (e : Engine) (s d : string) :
  engine_run new_engine evs = Some e ->
  fst (transfer_enter s d (transactionLock e)) = Ok tt
  <-> ~ In (lockKey s d) (map key_of (in_flight e)).
Proof.
  intros Hrun.
  destruct (engine_run_consistent _ _ _ new_engine_consistent Hrun) as [Hlocked _].
  unfold transfer_enter.
  destruct (locked (transactionLock e) (lockKey s d)) eqn:Hk; simpl.
  - split; [discriminate|]. intros Hnot. exfalso. apply Hnot, Hlocked, Hk.
  - split; [|reflexivity]. intros _ Hin. apply Hlocked in Hin. congruence.
Qed.

(** The key tells two pairs apart when the source paths hold no dash. *)
Lemma lockKey_injective (s s' d d' : string) :
  Js.includes "-" s = false ->
  Js.includes "-" s' = false ->
  lockKey s d = lockKey s' d' ->
  s = s' /\ d = d'.
Proof.
  unfold lockKey. revert s'. induction s as [|c s IH]; intros [|c' s'] Hs Hs' Heq.
  - rewrite !sapp_nil_l, !sapp_cons, !sapp_nil_l in Heq. injection Heq as ->.
    split; reflexivity.
  - rewrite sapp_nil_l, !sapp_cons in Heq. injection Heq as <- _. discriminate.
  - rewrite sapp_nil_l, !sapp_cons in Heq. injection Heq as -> _. discriminate.
  - rewrite !sapp_cons in Heq. injection Heq as -> Heq.
    simpl in Hs, Hs'. apply orb_false_iff in Hs as [_ Hs].
    apply orb_false_iff in Hs' as [_ Hs'].
    destruct (IH s' Hs Hs' Heq) as [-> ->]. split; reflexivity.
Qed.

(** C4: two calls for one pair exclude each other and the key is free
    again once the first has left; but the key is the two paths joined by
    a dash, so the distinct pairs (a-b, c) and (a, b-c) share the key a-b-c
    and the second call is refused for a lock it should not contend for. *)
Theorem distinct_pairs_share_a_key :
  outcomes <$> engine_run new_engine
    [Enter "users" "archive"; Enter "users" "archive";
     Leave "users" "archive"; Enter "users" "archive"]
  = Some [("users", "archive", Ok tt);
          ("users", "archive",
           Throw "Transaction already in progress for users-archive");
          ("users", "archive", Ok tt)]
  /\ ("a-b", "c") <> ("a", "b-c")
  /\ lockKey "a-b" "c" = lockKey "a" "b-c"
  /\ outcomes <$> engine_run new_engine [Enter "a-b" "c"; Enter "a" "b-c"]
     = Some [("a-b", "c", Ok tt);
             ("a", "b-c", Throw "Transaction already in progress for a-b-c")].
Proof.
  split; [vm_compute; reflexivity|].
  split; [discriminate|].
  split; [reflexivity|].
  vm_compute. reflexivity.
Qed.

(** *** The transfer *)

Lemma processTransfer_from (p : Document -> bool) (docs matching remaining : list Document) :
  fold_left
    (fun acc doc =>
       if p doc then (fst acc ++ [doc], snd acc) else (fst acc, snd acc ++ [doc]))
    docs (matching, remaining)
  = (matching ++ List.filter p docs, remaining ++ List.filter (fun d => negb (p d)) docs).
Proof.
  revert matching remaining. induction docs as [|d docs IH]; intros matching remaining; simpl.
  - rewrite !app_nil_r. reflexivity.
  - destruct (p d); simpl; rewrite IH; simpl; rewrite <- app_assoc; reflexivity.
Qed.

(** The two arrays of [processTransfer] are the documents the predicate
    accepts and those it rejects, each in source order. *)
Lemma processTransfer_filter (docs : list Document) (p : Document -> bool) :
  processTransfer docs p = (List.filter p docs, List.filter (fun d => negb (p d)) docs).
Proof. unfold processTransfer. rewrite processTransfer_from. reflexivity. Qed.

Lemma filter_none (p : Document -> bool) (docs : list Document) :
  (forall d, In d docs -> p d = false) -> List.filter p docs = [].
Proof.
  induction docs as [|d docs IH]; simpl; intros Hall; [reflexivity|].
  rewrite (Hall d (or_introl eq_refl)). apply IH. intros d' Hd'. apply Hall. right. exact Hd'.
Qed.

Section Transfer.

Context `{Platform}.

(** C8: when the predicate accepts no document of the source, the transfer
    returns normally and the remote store is as it was: no file, no
    revision and no requested write differs.  (A call refused for its lock
    does not touch the store either.) *)
Theorem transfer_without_match_writes_nothing
  (sourcePath destPath : string) (options : TransferOptions)
  (locks : gmap string bool) (r : Remote) :
  (forall doc,
     In doc (parseFileContent (read r sourcePath) (detectFormat sourcePath)) ->
     predicate options doc = false) ->
  snd (transfer sourcePath destPath options locks r) = r
  /\ (locked locks (lockKey sourcePath destPath) = false ->
      fst (fst (transfer sourcePath destPath options locks r)) = Ok tt).
Proof.
  intros Hnone. unfold transfer, transfer_enter.
  destruct (locked locks (lockKey sourcePath destPath)); simpl.
  - split; [reflexivity|discriminate].
  - unfold executeAtomicTransfer, transfer_settled.
    rewrite processTransfer_filter, (filter_none _ _ Hnone). simpl.
    split; [reflexivity|]. intros _. reflexivity.
Qed.

(** What is written back to the source under conversion options is the
    output of the whole conversion pipeline on the remaining documents. *)
Lemma source_content_under_conversion
  (sourcePath destPath : string) (options : TransferOptions) (conv : ConversionOptions)
  (sourceFile destFile : Settled (option File)) (r : Remote)
  (converted newDest newSource : string) :
  let sourceFormat := detectFormat sourcePath in
  let destFormat := detectFormat destPath in
  let sourceDocs := parseFileContent sourceFile sourceFormat in
  let destDocs := parseFileContent destFile destFormat in
  let matching := List.filter (predicate options) sourceDocs in
  let remaining := List.filter (fun d => negb (predicate options d)) sourceDocs in
  let moved := match transfer_transform options with
               | Some f => map f matching
               | None => matching
               end in
  conversion options = Some conv ->
  matching <> [] ->
  convertDocuments moved (with_formats conv sourceFormat destFormat) = Ok converted ->
  convertDocuments (destDocs ++ moved) (with_formats conv destFormat destFormat) = Ok newDest ->
  convertDocuments remaining (with_formats conv sourceFormat sourceFormat) = Ok newSource ->
  transfer_settled sourceFormat destFormat sourcePath destPath options sourceFile destFile r
  = atomicCommit
      {| sourcePath := sourcePath; destPath := destPath;
         sourceContent := newSource; destContent := newDest;
         sourceSha := captured_sha sourceFile; destSha := captured_sha destFile |}
      (length moved) r.
Proof.
  intros sourceFormat destFormat sourceDocs destDocs matching remaining moved
    Hconv Hsome Hc Hd Hs.
  unfold transfer_settled. fold sourceDocs destDocs.
  rewrite processTransfer_filter. fold matching remaining.
  destruct matching as [|m ms] eqn:Hm; [contradiction|].
  cbn [length Nat.eqb]. rewrite Hconv. fold moved.
  unfold and_then, lift, mergeWithDestination. rewrite Hc, Hd, Hs. reflexivity.
Qed.

End Transfer.

Section TransferRuns.

Existing Instance reference_platform.

Lemma transfer_without_match_writes_nothing_witness :
  snd (transfer "users.jsonl" "seniors.jsonl" (move_older_than 100) ∅ users_remote)
  = users_remote
  /\ fst (fst (transfer "users.jsonl" "seniors.jsonl" (move_older_than 100) ∅ users_remote))
     = Ok tt.
Proof.
  assert (Hnone : forall doc,
            In doc (parseFileContent (read users_remote "users.jsonl")
                      (detectFormat "users.jsonl")) ->
            predicate (move_older_than 100) doc = false).
  { vm_compute. intros doc [<-|[<-|[]]]; reflexivity. }
  destruct (transfer_without_match_writes_nothing
              "users.jsonl" "seniors.jsonl" (move_older_than 100) ∅ users_remote Hnone)
    as [Hsame Hok].
  split; [exact Hsame|]. apply Hok. reflexivity.
Defined.

(** The example of the specification: the user older than 25 moves to the
    destination, the other stays. *)
Lemma transfer_example :
  let '(outcome, _, r) :=
    transfer "users.jsonl" "seniors.jsonl" (move_older_than 25) ∅ users_remote in
  outcome = Ok tt
  /\ content <$> files r !! "seniors.jsonl" = Some (Json.stringify (user 1 30) 0 +:+ Js.nl)
  /\ content <$> files r !! "users.jsonl" = Some (Json.stringify (user 2 20) 0 +:+ Js.nl).
Proof. vm_compute. repeat split. Qed.

End TransferRuns.

Section ConversionRuns.

Existing Instance reference_platform.

(** C1: with conversion options the source is not written back as the
    remaining documents unchanged.  A field mapping renames the fields of
    the document that stays (here id becomes identifier), and a conversion
    filter that rejects it empties the source, although the document was
    not moved. *)
Theorem conversion_rewrites_remaining :
  source_after plain_conversion = Some (Json.stringify (user 2 20) 2)
  /\ source_after renaming
     = Some (Json.stringify (JObj [("identifier", JNum 2); ("age", JNum 20)]) 2)
  /\ source_after renaming <> Some (Json.stringify (user 2 20) 2)
  /\ source_after filtering = Some "[]".
Proof.
  split; [vm_compute; reflexivity|].
  split; [vm_compute; reflexivity|].
  split; [vm_compute; discriminate|].
  vm_compute; reflexivity.
Qed.

End ConversionRuns.

(** *** The write queue *)



Lemma completed_app (d1 d2 : list (QueuedWrite * Result unit)) :
  completed (d1 ++ d2) = completed d1 ++ completed d2.
Proof. unfold completed. apply flat_map_app. Qed.






Lemma new_manager_invariant (r : Remote) : queue_invariant (new_manager r) [].
Proof. exists []. simpl. close_invariant. Qed.

Lemma settle_invariant (caller : nat) (outcome : Result unit) (m : StorageManager)
  (subs : list QueuedWrite) :
  queue_invariant m subs -> queue_invariant (settle caller outcome m) subs.
Proof. intros (done & H1 & H2 & H3 & H4 & H5). exists done. simpl. auto. Qed.

(** The loop entered with the flag set, no activation suspended and the
    journal showing no write in progress. *)
Lemma drain_loop_invariant (caller : nat) (m : StorageManager)
  (done : list (QueuedWrite * Result unit)) :
  journal m = completed done ->
  drains m = [] ->
  isProcessingQueue m = true ->
  queue_invariant (drain_loop caller m) (map fst done ++ writeQueue m).
Proof.
  intros Hj Hd Hflag. unfold drain_loop.
  destruct (writeQueue m) as [|w rest] eqn:Hq.
  - apply settle_invariant. exists done. simpl. rewrite Hd, Hj. simpl.
    rewrite !app_nil_r. close_invariant.
  - exists done. simpl. rewrite Hd, Hj. simpl. close_invariant.
Qed.

Lemma queue_step_invariant (m m' : StorageManager) (ev : QueueEvent)
  (subs : list QueuedWrite) :
  queue_invariant m subs ->
  queue_step m ev = Some m' ->
  queue_invariant m' (subs ++ submitted [ev]).
Proof.
  intros (done & Hj & Hs & Hlen & Hidle & Hfail) Hstep.
  destruct ev as [caller w|caller|k|k|path text]; simpl in Hstep.
  - (* Enqueue *)
    injection Hstep as <-. unfold enqueueWrite. simpl.
    destruct (isProcessingQueue m) eqn:Hflag; simpl.
    + apply settle_invariant. exists done. simpl.
      rewrite <- Hs, <- !app_assoc. close_invariant.
    + destruct (Hidle eq_refl) as [Hd Hq].
      unfold processWriteQueue, drain_loop. simpl. rewrite Hq. simpl.
      exists done. simpl. rewrite Hd, Hj, Hd. simpl.
      rewrite <- Hs, Hd, Hq. simpl. rewrite !app_nil_r. close_invariant.
  - (* Flush *)
    injection Hstep as <-. unfold flushWriteQueue, processWriteQueue.
    rewrite app_nil_r.
    destruct (isProcessingQueue m) eqn:Hflag.
    + apply settle_invariant. exists done. close_invariant.
    + destruct (Hidle eq_refl) as [Hd Hq].
      unfold drain_loop. simpl. rewrite Hq.
      apply settle_invariant. exists done. simpl. close_invariant.
  - (* ReadDone *)
    rewrite app_nil_r. unfold read_done in Hstep.
    destruct (drains m !! k) as [[caller w [|existing]]|] eqn:Hk; try discriminate.
    injection Hstep as <-.
    destruct (drains m) as [|d [|d' ds]] eqn:Hd; simpl in Hlen; [discriminate| |lia].
    destruct k as [|k]; [|discriminate]. injection Hk as ->.
    assert (Hflag : isProcessingQueue m = true).
    { destruct (isProcessingQueue m); [reflexivity|].
      destruct (Hidle eq_refl) as [Hnil _]. discriminate. }
    exists done. simpl. simpl in Hj, Hs. rewrite Hflag. close_invariant.
  - (* WriteDone *)
    rewrite app_nil_r. unfold write_done in Hstep.
    destruct (drains m !! k) as [[caller w [|existing]]|] eqn:Hk; try discriminate.
    destruct (drains m) as [|d [|d' ds]] eqn:Hd; simpl in Hlen; [discriminate| |lia].
    destruct k as [|k]; [|discriminate]. injection Hk as ->.
    simpl in Hj, Hs.
    assert (Hflag : isProcessingQueue m = true).
    { destruct (isProcessingQueue m); [reflexivity|].
      destruct (Hidle eq_refl) as [Hnil _]. discriminate. }
    destruct (write_request w existing (store m)) as [outcome r] eqn:Hw.
    injection Hstep as <-.
    assert (Hj' : journal m ++ [Finished w outcome] = completed (done ++ [(w, outcome)])).
    { rewrite Hj, completed_app. simpl. rewrite <- app_assoc. reflexivity. }
    destruct outcome as [[]|e].
    + replace subs with (map fst (done ++ [(w, Ok tt)]) ++ writeQueue m)
        by (rewrite map_app, <- Hs, <- app_assoc; reflexivity).
      apply (drain_loop_invariant caller
               {| writeQueue := writeQueue m; isProcessingQueue := isProcessingQueue m;
                  drains := []; futures := futures m;
                  journal := journal m ++ [Finished w (Ok tt)]; store := r |});
        [exact Hj'|reflexivity|exact Hflag].
    + apply settle_invariant. exists (done ++ [(w, Throw e)]). simpl.
      rewrite Hflag. close_invariant.
      * rewrite Hj', app_nil_r. reflexivity.
      * rewrite map_app, <- Hs, <- app_assoc. reflexivity.
      * exists w, e. apply in_or_app. right. left. reflexivity.
  - (* External *)
    injection Hstep as <-. rewrite app_nil_r. exists done. simpl.
    close_invariant; apply Hidle; assumption.
Qed.

Lemma submitted_app (evs1 evs2 : list QueueEvent) :
  submitted (evs1 ++ evs2) = submitted evs1 ++ submitted evs2.
Proof.
  induction evs1 as [|[] evs1 IH]; simpl; try exact IH; [reflexivity|].
  rewrite IH. reflexivity.
Qed.

Lemma queue_run_invariant (evs : list QueueEvent) (m m' : StorageManager)
  (subs : list QueuedWrite) :
  queue_invariant m subs ->
  queue_run m evs = Some m' ->
  queue_invariant m' (subs ++ submitted evs).
Proof.
  revert m subs. induction evs as [|ev evs IH]; simpl; intros m subs Hinv Hrun.
  - injection Hrun as <-. rewrite app_nil_r. exact Hinv.
  - destruct (queue_step m ev) as [m1|] eqn:Hstep; [|discriminate].
    pose proof (IH m1 _ (queue_step_invariant _ _ _ _ Hinv Hstep) Hrun) as Hinv'.
    rewrite <- app_assoc, <- submitted_app in Hinv'. exact Hinv'.
Qed.



Lemma with_store_same (m : StorageManager) : with_store (store m) m = m.
Proof. destruct m. reflexivity. Qed.

Lemma queue_run_app (m : StorageManager) (evs1 evs2 : list QueueEvent) :
  queue_run m (evs1 ++ evs2)
  = match queue_run m evs1 with
    | Some m1 => queue_run m1 evs2
    | None => None
    end.
Proof.
  revert m. induction evs1 as [|ev evs1 IH]; intros m; simpl; [reflexivity|].
  destruct (queue_step m ev); [apply IH|reflexivity].
Qed.

Lemma queue_run_externals (writes : list (string * string)) (m : StorageManager) :
  queue_run m (external_events writes) = Some (with_store (externals writes (store m)) m).
Proof.
  revert m. induction writes as [|[path text] writes IH]; intros m; simpl.
  - rewrite with_store_same. reflexivity.
  - rewrite IH. reflexivity.
Qed.

(** C9 (as amended): a write enqueued while no drain is in progress, and
    not joined by another write before it ends, settles the future of its
    caller with its own outcome: the outcome of the write it requests with
    what it read, on the store as other clients left it in the meantime
    (a revision conflict included).  A write enqueued while a drain is in
    progress has its future resolved at once, before the write has run. *)
Theorem lone_write_settles_with_its_outcome
  (evs : list QueueEvent) (r : Remote) (m : StorageManager)
  (caller : nat) (w : QueuedWrite) (before between : list (string * string)) :
  queue_run (new_manager r) evs = Some m ->
  (isProcessingQueue m = false ->
   let at_read := externals before (store m) in
   let existing := read_existing at_read (qw_path w) in
   let at_write := externals between at_read in
   let outcome := fst (write_request w existing at_write) in
   exists m',
     queue_run m
       ([Enqueue caller w] ++ external_events before ++ [ReadDone 0]
        ++ external_events between ++ [WriteDone 0]) = Some m'
     /\ futures m' = futures m ++ [(caller, outcome)]
     /\ journal m' = journal m ++ [Started w; Finished w outcome]
     /\ store m' = snd (write_request w existing at_write))
  /\ (isProcessingQueue m = true ->
      futures (enqueueWrite caller w m) = futures m ++ [(caller, Ok tt)]
      /\ journal (enqueueWrite caller w m) = journal m
      /\ writeQueue (enqueueWrite caller w m) = writeQueue m ++ [w]).
Proof.
  intros Hrun. split.
  - intros Hflag at_read existing at_write outcome.
    destruct (queue_run_invariant _ _ _ _ (new_manager_invariant r) Hrun)
      as (done & _ & _ & _ & Hidle & _).
    destruct (Hidle Hflag) as [Hd Hq].
    rewrite queue_run_app. simpl.
    unfold enqueueWrite, processWriteQueue, drain_loop. simpl.
    rewrite Hflag, Hq, Hd. simpl.
    rewrite queue_run_app, queue_run_externals. simpl.
    rewrite queue_run_app. unfold read_done. simpl.
    rewrite queue_run_externals. simpl.
    unfold write_done. simpl.
    fold at_read. fold existing. fold at_write.
    subst outcome.
    destruct (write_request w existing at_write) as [[[]|e] r'] eqn:Hw; simpl.
    + eexists. split; [reflexivity|]. simpl.
      rewrite <- app_assoc. repeat split; reflexivity.
    + eexists. split; [reflexivity|]. simpl.
      rewrite <- app_assoc. repeat split; reflexivity.
  - intros Hflag. unfold enqueueWrite. simpl. rewrite Hflag. simpl.
    repeat split; reflexivity.
Qed.

Lemma lone_write_settles_with_its_outcome_witness :
  futures <$> queue_run (new_manager b_remote)
    [Enqueue 7 (write_to "b.json" "2"); ReadDone 0; External "b.json" "other"; WriteDone 0]
  = Some [(7, Throw "Revision conflict: b.json")].
Proof.
  destruct (proj1 (lone_write_settles_with_its_outcome [] b_remote (new_manager b_remote)
                     7 (write_to "b.json" "2") [] [("b.json", "other")] eq_refl) eq_refl)
    as (m' & Hrun & Hfutures & _).
  change (queue_run (new_manager b_remote)
            [Enqueue 7 (write_to "b.json" "2"); ReadDone 0;
             External "b.json" "other"; WriteDone 0] = Some m') in Hrun.
  rewrite Hrun. simpl. rewrite Hfutures. vm_compute. reflexivity.
Defined.

(** C9, counterexample: the second write is enqueued while the first is in
    progress.  Its future resolves at once; its update later fails on a
    revision conflict, and that failure rejects the future of the first
    caller, whose own write had succeeded. *)
Lemma queued_behind_resolves_early :
  (futures <$> queue_run (new_manager b_remote) (take 2 conflict_events))
  = Some [(2, Ok tt)]
  /\ (journal <$> queue_run (new_manager b_remote) (take 2 conflict_events))
     = Some [Started (write_to "a.json" "1")]
  /\ (futures <$> queue_run (new_manager b_remote) conflict_events)
     = Some [(2, Ok tt); (1, Throw "Revision conflict: b.json")]
  /\ (journal <$> queue_run (new_manager b_remote) conflict_events)
     = Some [Started (write_to "a.json" "1");
             Finished (write_to "a.json" "1") (Ok tt);
             Started (write_to "b.json" "2");
             Finished (write_to "b.json" "2") (Throw "Revision conflict: b.json")].
Proof. vm_compute. repeat split. Qed.

(** Once a write has failed, the flag stays up with no activation left:
    from then on no event starts a write, and every later enqueue only
    lengthens the queue. *)
Lemma no_write_starts_after_failure (evs : list QueueEvent) (m m' : StorageManager) :
  isProcessingQueue m = true ->
  drains m = [] ->
  queue_run m evs = Some m' ->
  isProcessingQueue m' = true
  /\ drains m' = []
  /\ journal m' = journal m
  /\ writeQueue m' = writeQueue m ++ submitted evs.
Proof.
  revert m. induction evs as [|ev evs IH]; simpl; intros m Hflag Hd Hrun.
  - injection Hrun as <-. rewrite app_nil_r. auto.
  - destruct ev as [caller w|caller|k|k|path text]; simpl in Hrun.
    + unfold enqueueWrite in Hrun. simpl in Hrun. rewrite Hflag in Hrun. simpl in Hrun.
      apply IH in Hrun; [|reflexivity|exact Hd].
      destruct Hrun as (H1 & H2 & H3 & H4).
      simpl in H3, H4. rewrite <- app_assoc in H4. auto.
    + unfold flushWriteQueue, processWriteQueue in Hrun. rewrite Hflag in Hrun.
      exact (IH (settle caller (Ok tt) m) Hflag Hd Hrun).
    + unfold read_done in Hrun. rewrite Hd in Hrun. discriminate.
    + unfold write_done in Hrun. rewrite Hd in Hrun. discriminate.
    + exact (IH (external_write path text m) Hflag Hd Hrun).
Qed.

(** *** Malformed input *)

Section Malformed.

Context `{Platform}.

Lemma mapM_index_first_failure {A B : Type} (f : A -> nat -> Result B)
  (good : list A) (bad : A) (rest : list A) (i : nat) (e : string) :
  (forall x j, In x good -> exists y, f x j = Ok y) ->
  f bad (i + length good) = Throw e ->
  mapM_index f i (good ++ bad :: rest) = Throw e.
Proof.
  revert i. induction good as [|x good IH]; intros i Hgood Hbad; simpl.
  - rewrite Nat.add_0_r in Hbad. rewrite Hbad. reflexivity.
  - destruct (Hgood x i (or_introl eq_refl)) as [y ->]. simpl.
    rewrite IH; [reflexivity| |].
    + intros x' j Hin. apply Hgood. right. exact Hin.
    + simpl in Hbad. rewrite Nat.add_succ_r in Hbad. exact Hbad.
Qed.

Lemma mapM_first_failure {A B : Type} (f : A -> Result B)
  (good : list A) (bad : A) (rest : list A) (e : string) :
  (forall x, In x good -> exists y, f x = Ok y) ->
  f bad = Throw e ->
  mapM f (good ++ bad :: rest) = Throw e.
Proof.
  induction good as [|x good IH]; intros Hgood Hbad; simpl.
  - rewrite Hbad. reflexivity.
  - destruct (Hgood x (or_introl eq_refl)) as [y ->]. simpl.
    rewrite IH; [reflexivity| |exact Hbad].
    intros x' Hin. apply Hgood. right. exact Hin.
Qed.

Lemma JSONFormatter_rejects (text : string) (options : FormatOptions) (e : string) :
  Js.blank text = false ->
  JSON_parse text = Throw e ->
  JSONFormatter_parse text options = Throw ("Invalid JSON format: " +:+ e).
Proof. intros Hb He. unfold JSONFormatter_parse. rewrite Hb, He. reflexivity. Qed.

Lemma JSONLFormatter_rejects (text : string) (options : FormatOptions)
  (good : list string) (bad : string) (rest : list string) (e : string) :
  Js.blank text = false ->
  non_blank_lines text = good ++ bad :: rest ->
  (forall line, In line good -> exists v, JSON_parse line = Ok v) ->
  JSON_parse bad = Throw e ->
  JSONLFormatter_parse text options
  = Throw ("Invalid JSONL at line " +:+ pretty (length good + 1) +:+ ": " +:+ e).
Proof.
  intros Hb Hlines Hgood Hbad. unfold JSONLFormatter_parse. rewrite Hb, Hlines.
  apply mapM_index_first_failure.
  - intros line j Hin. destruct (Hgood line Hin) as [v ->]. exists v. reflexivity.
  - simpl. rewrite Hbad. reflexivity.
Qed.

Lemma YAMLFormatter_rejects (text : string) (options : FormatOptions)
  (good : list YamlDocument) (bad : YamlDocument) (rest : list YamlDocument)
  (e first : string) (others : list string) :
  Js.blank text = false ->
  yaml_parse text = Throw e ->
  yaml_parseAllDocuments text = good ++ bad :: rest ->
  (forall doc, In doc good -> yd_errors doc = []) ->
  yd_errors bad = first :: others ->
  YAMLFormatter_parse text options
  = Throw ("Invalid YAML format: YAML parsing error: " +:+ first).
Proof.
  intros Hb He Hall Hgood Hbad. unfold YAMLFormatter_parse.
  rewrite Hb, He, Hall. simpl.
  rewrite (mapM_first_failure _ good bad rest ("YAML parsing error: " +:+ first)).
  - reflexivity.
  - intros doc Hin. rewrite (Hgood doc Hin). eexists. reflexivity.
  - rewrite Hbad. reflexivity.
Qed.

Lemma CSVFormatter_never_rejects (text : string) (options : FormatOptions) :
  exists docs, CSVFormatter_parse text options = Ok docs.
Proof.
  unfold CSVFormatter_parse.
  destruct (Js.blank text); [eexists; reflexivity|].
  destruct (Nat.ltb (length (non_blank_lines text)) 2); eexists; reflexivity.
Qed.

Lemma parseFileContent_swallows (file : File) (format : string) (e : string) :
  bind (getFormatter format)
    (fun formatter => parse formatter (content file) default_format_options) = Throw e ->
  parseFileContent (Fulfilled (Some file)) format = [].
Proof.
  intros He. unfold parseFileContent. rewrite He.
  destruct (Js.blank (content file)); reflexivity.
Qed.

(** C2 (as amended): on malformed input the array-or-scalar codec throws
    an invalid-format error; the line-delimited codec throws one that
    carries the 1-based index of the first offending line, counted among
    the non-blank lines; the nested codec throws one when the
    single-document parse fails and a document of the multi-document parse
    has errors; the tabular codec throws on no input at all.  A side whose
    content fails to parse is read by the transfer coordinator as the empty
    sequence: the failure is caught, not passed on. *)
Theorem malformed_input_handling :
  (forall text options e,
     Js.blank text = false ->
     JSON_parse text = Throw e ->
     JSONFormatter_parse text options = Throw ("Invalid JSON format: " +:+ e))
  /\ (forall text options good bad rest e,
        Js.blank text = false ->
        non_blank_lines text = good ++ bad :: rest ->
        (forall line, In line good -> exists v, JSON_parse line = Ok v) ->
        JSON_parse bad = Throw e ->
        JSONLFormatter_parse text options
        = Throw ("Invalid JSONL at line " +:+ pretty (length good + 1) +:+ ": " +:+ e))
  /\ (forall text options good bad rest e first others,
        Js.blank text = false ->
        yaml_parse text = Throw e ->
        yaml_parseAllDocuments text = good ++ bad :: rest ->
        (forall doc, In doc good -> yd_errors doc = []) ->
        yd_errors bad = first :: others ->
        YAMLFormatter_parse text options
        = Throw ("Invalid YAML format: YAML parsing error: " +:+ first))
  /\ (forall text options, exists docs, CSVFormatter_parse text options = Ok docs)
  /\ (forall file format e,
        bind (getFormatter format)
          (fun formatter => parse formatter (content file) default_format_options)
        = Throw e ->
        parseFileContent (Fulfilled (Some file)) format = []).
Proof.
  split; [exact JSONFormatter_rejects|].
  split; [exact JSONLFormatter_rejects|].
  split; [exact YAMLFormatter_rejects|].
  split; [exact CSVFormatter_never_rejects|].
  exact parseFileContent_swallows.
Qed.

End Malformed.

Section MalformedRuns.

Existing Instance reference_platform.

Lemma malformed_input_handling_witness :
  JSONLFormatter_parse broken_jsonl default_format_options
  = Throw "Invalid JSONL at line 2: Expected a property name in JSON"
  /\ parseFileContent
       (Fulfilled (Some {| content := truncated_json; sha := Some "s1" |})) "json" = [].
Proof.
  destruct malformed_input_handling as (_ & Hjsonl & _ & _ & Hfile).
  split.
  - apply (Hjsonl broken_jsonl default_format_options
             [Json.stringify (user 1 30) 0] "{oops" []).
    + reflexivity.
    + reflexivity.
    + intros line [<-|[]]. eexists. vm_compute. reflexivity.
    + reflexivity.
  - apply (Hfile {| content := truncated_json; sha := Some "s1" |} "json"
             "Invalid JSON format: Unexpected end of JSON input").
    reflexivity.
Defined.

(** C2, counterexample: the array-or-scalar codec rejects a truncated
    object, yet the transfer coordinator reads a side holding it as empty:
    a transfer from such a source returns normally and moves nothing, and a
    transfer into such a destination writes the moved document over it.
    The tabular codec accepts a record with more values than the header
    has fields and drops the value beyond. *)
Lemma parse_failure_read_as_empty :
  JSONFormatter_parse truncated_json default_format_options
  = Throw "Invalid JSON format: Unexpected end of JSON input"
  /\ parseFileContent
       (Fulfilled (Some {| content := truncated_json; sha := Some "s1" |})) "json" = []
  /\ transfer "users.json" "seniors.json" move_everything ∅ broken_source_remote
     = (Ok tt, ∅, broken_source_remote)
  /\ (let '(outcome, _, r) :=
        transfer "users.jsonl" "seniors.json" (move_older_than 25) ∅ broken_dest_remote in
      outcome = Ok tt
      /\ content <$> files r !! "seniors.json" = Some (Json.stringify (user 1 30) 2))
  /\ CSVFormatter_parse ragged_csv default_format_options
     = Ok [JObj [("a", JStr "1"); ("b", JStr "2")]].
Proof. vm_compute. repeat split. Qed.

End MalformedRuns.

(** *** Round trips *)

Lemma includes_app (c : ascii) (a b : string) :
  Js.includes c (a +:+ b) = Js.includes c a || Js.includes c b.
Proof.
  induction a as [|x a IH]; simpl; [reflexivity|]. rewrite IH, orb_assoc. reflexivity.
Qed.

Lemma all_white_app (a b : string) : all_white (a +:+ b) = all_white a && all_white b.
Proof.
  induction a as [|x a IH]; simpl; [reflexivity|]. rewrite IH, andb_assoc. reflexivity.
Qed.

Lemma trimEnd_empty (s : string) : Js.trimEnd s = EmptyString <-> all_white s = true.
Proof.
  induction s as [|c s IH]; simpl; [tauto|].
  destruct (Js.trimEnd s) eqn:Ht.
  - destruct (Js.is_white c); simpl.
    + rewrite <- IH. tauto.
    + split; discriminate.
  - split; [discriminate|]. intros Hw. apply andb_true_iff in Hw as [_ Hw].
    apply IH in Hw. discriminate.
Qed.

Lemma all_white_trimStart (s : string) : all_white (Js.trimStart s) = all_white s.
Proof.
  induction s as [|c s IH]; simpl; [reflexivity|].
  destruct (Js.is_white c) eqn:Hc; simpl; [exact IH|]. rewrite Hc. reflexivity.
Qed.

Lemma blank_all_white (s : string) : Js.blank s = all_white s.
Proof.
  unfold Js.blank, Js.trim. rewrite <- all_white_trimStart.
  destruct (all_white (Js.trimStart s)) eqn:Hw.
  - apply trimEnd_empty in Hw. rewrite Hw. reflexivity.
  - destruct (Js.trimEnd (Js.trimStart s)) eqn:Ht; [|reflexivity].
    apply trimEnd_empty in Ht. congruence.
Qed.


Lemma split_append (sep : ascii) (a b : string) :
  Js.includes sep a = false ->
  Js.split sep (a +:+ String sep b) = a :: Js.split sep b.
Proof.
  induction a as [|c a IH]; simpl; intros Hinc.
  - rewrite Ascii.eqb_refl. reflexivity.
  - apply orb_false_iff in Hinc as [Hc Ha]. rewrite Hc, (IH Ha). reflexivity.
Qed.


















Section RoundTrips.

Context `{Platform}.





End RoundTrips.

Section RoundTripRuns.

Existing Instance reference_platform.



End RoundTripRuns.

(** *** Further properties of the three components *)

(** X1: the two arrays of a transfer split the source documents: each document
    is in exactly one of them, by the predicate, and in source order. *)
Theorem processTransfer_partitions (docs : list Document) (p : Document -> bool) :
  let matching := fst (processTransfer docs p) in
  let remaining := snd (processTransfer docs p) in
  matching = List.filter p docs
  /\ remaining = List.filter (fun d => negb (p d)) docs
  /\ (forall d, In d docs <-> In d matching \/ In d remaining)
  /\ (forall d, In d matching -> In d remaining -> False)
  /\ length matching + length remaining = length docs.
Proof.
  rewrite processTransfer_filter. simpl. repeat split.
  - intros Hin. destruct (p d) eqn:Hp.
    + left. apply filter_In. auto.
    + right. apply filter_In. rewrite Hp. auto.
  - intros [Hin|Hin]; apply filter_In in Hin as [Hin _]; exact Hin.
  - intros d Hm Hr. apply filter_In in Hm as [_ Hm]. apply filter_In in Hr as [_ Hr].
    rewrite Hm in Hr. discriminate.
  - induction docs as [|d docs IH]; simpl; [reflexivity|].
    destruct (p d); simpl; lia.
Qed.

(** X3: the line-delimited codec writes one line per document, each ended by
    a line feed, so the text is empty for the empty sequence and ends in a
    line feed otherwise; the empty text reads as the empty sequence. *)
Theorem jsonl_trailing_newline `{Platform} (documents : list Document)
  (options : FormatOptions) :
  JSONLFormatter_serialize [] options = Ok EmptyString
  /\ JSONLFormatter_parse EmptyString options = Ok []
  /\ JSONLFormatter_serialize documents options
     = Ok (String.concat EmptyString
             (map (fun doc => JSON_stringify doc 0 +:+ Js.nl) documents)).
Proof.
  split; [reflexivity|]. split; [reflexivity|].
  unfold JSONLFormatter_serialize. f_equal.
  induction documents as [|d [|d' ds] IH]; [reflexivity|reflexivity|].
  change (Js.join Js.nl (map (fun doc => JSON_stringify doc 0) (d :: d' :: ds))
          +:+ (if Nat.ltb 0 (length (d :: d' :: ds)) then Js.nl else EmptyString))
    with ((JSON_stringify d 0
           +:+ (Js.nl +:+ Js.join Js.nl (map (fun doc => JSON_stringify doc 0) (d' :: ds))))
          +:+ Js.nl).
  change (String.concat EmptyString
            (map (fun doc => JSON_stringify doc 0 +:+ Js.nl) (d :: d' :: ds)))
    with ((JSON_stringify d 0 +:+ Js.nl)
          +:+ String.concat EmptyString
                (map (fun doc => JSON_stringify doc 0 +:+ Js.nl) (d' :: ds))).
  rewrite <- IH.
  change (if Nat.ltb 0 (length (d' :: ds)) then Js.nl else EmptyString) with Js.nl.
  rewrite !sapp_assoc. reflexivity.
Qed.

(** X4: flushing a manager that is idle changes nothing but to resolve the
    future of the flush. *)
Theorem flush_of_idle_queue (evs : list QueueEvent) (r : Remote) (m : StorageManager)
  (caller : nat) :
  queue_run (new_manager r) evs = Some m ->
  isProcessingQueue m = false ->
  flushWriteQueue caller m = settle caller (Ok tt) m.
Proof.
  intros Hrun Hflag.
  destruct (queue_run_invariant _ _ _ _ (new_manager_invariant r) Hrun)
    as (done & _ & _ & _ & Hidle & _).
  destruct (Hidle Hflag) as [Hd Hq].
  unfold flushWriteQueue, processWriteQueue, drain_loop. rewrite Hflag. simpl.
  rewrite Hq. unfold settle. simpl. destruct m. simpl in *. subst. reflexivity.
Qed.

Lemma flush_of_idle_queue_witness :
  flushWriteQueue 9 (new_manager empty_remote) = settle 9 (Ok tt) (new_manager empty_remote).
Proof. exact (flush_of_idle_queue [] empty_remote _ 9 eq_refl eq_refl). Defined.

(** X5: a write that fails leaves the flag of the drain up for good: no later
    enqueue or flush starts a write, the queue only grows. *)
Theorem failed_write_stalls_queue (r : Remote) (before later : list QueueEvent)
  (m m' : StorageManager) :
  queue_run (new_manager r) before = Some m ->
  isProcessingQueue m = true ->
  drains m = [] ->
  queue_run m later = Some m' ->
  journal m' = journal m
  /\ writeQueue m' = writeQueue m ++ submitted later
  /\ isProcessingQueue m' = true.
Proof.
  intros _ Hflag Hd Hrun.
  destruct (no_write_starts_after_failure later m m' Hflag Hd Hrun) as (H1 & _ & H3 & H4).
  auto.
Qed.

Lemma failed_write_stalls_queue_witness :
  queue_run (new_manager empty_remote) after_failure = Some stalled
  /\ queue_run stalled later_events = Some stalled_later
  /\ journal stalled_later
     = [Started (write_to "a.json" "1");
        Finished (write_to "a.json" "1") (Throw "File already exists: a.json")]
  /\ writeQueue stalled_later = [write_to "b.json" "2"; write_to "c.json" "3"].
Proof.
  assert (Hm : queue_run (new_manager empty_remote) after_failure = Some stalled)
    by (vm_compute; reflexivity).
  assert (Hm' : queue_run stalled later_events = Some stalled_later)
    by (vm_compute; reflexivity).
  assert (Hflag : isProcessingQueue stalled = true) by (vm_compute; reflexivity).
  assert (Hd : drains stalled = []) by (vm_compute; reflexivity).
  destruct (failed_write_stalls_queue empty_remote after_failure later_events
              stalled stalled_later Hm Hflag Hd Hm') as (Hj & Hq & _).
  split; [exact Hm|]. split; [exact Hm'|]. split.
  - rewrite Hj. vm_compute. reflexivity.
  - rewrite Hq. vm_compute. reflexivity.
Defined.

Lemma entered_iff_key_free_witness :
  fst (transfer_enter "users" "archive"
         (transactionLock
            {| transactionLock := {[ "logs-old" := true ]};
               in_flight := [("logs", "old")];
               outcomes := [("logs", "old", Ok tt)] |})) = Ok tt.
Proof.
  apply (entered_iff_key_free [Enter "logs" "old"] _ "users" "archive").
  - vm_compute. reflexivity.
  - vm_compute. intros [Hk|[]]. discriminate.
Defined.

Lemma commit_both_present_witness :
  calls (snd (atomicCommit both_present_state 1 both_present_remote))
  = [UpdateFile "archive.json" "[1]"
       "Transfer: Moved 1 documents from users.json to archive.json" (Some "d1");
     UpdateFile "users.json" "[]"
       "Transfer: Moved 1 documents from users.json to archive.json" (Some "s1")].
Proof.
  rewrite (commit_both_present both_present_state 1 both_present_remote eq_refl eq_refl).
  vm_compute. reflexivity.
Defined.

Lemma commit_source_only_witness :
  calls (snd (atomicCommit source_only_state 1 source_only_remote))
  = [CreateFile "archive.json" "[1]"
       "Transfer: Moved 1 documents from users.json to archive.json";
     UpdateFile "users.json" "[]"
       "Transfer: Moved 1 documents from users.json to archive.json" (Some "s1")].
Proof.
  rewrite (commit_source_only source_only_state 1 source_only_remote eq_refl eq_refl).
  vm_compute. reflexivity.
Defined.

(** X9: no rollback.  When both sides had a revision and the one held for
    the source is stale, the destination has been updated by the time the
    update of the source is refused: the commit fails with the conflict
    and leaves the destination with its new content, the source as it
    was. *)
Theorem partial_commit_is_kept (state : TransactionState) (movedCount : nat) (r : Remote)
  (dest_file source_file : File) :
  sourcePath state <> destPath state ->
  present (sourceSha state) = true ->
  present (destSha state) = true ->
  files r !! destPath state = Some dest_file ->
  sha dest_file = destSha state ->
  files r !! sourcePath state = Some source_file ->
  sha source_file <> sourceSha state ->
  fst (atomicCommit state movedCount r)
  = Throw ("Transfer failed: Revision conflict: " +:+ sourcePath state)
  /\ content <$> files (snd (atomicCommit state movedCount r)) !! destPath state
     = Some (destContent state)
  /\ files (snd (atomicCommit state movedCount r)) !! sourcePath state = Some source_file.
Proof.
  intros Hne Hs Hd Hdest Hdsha Hsrc Hssha.
  rewrite atomicCommit_shapes, Hs, Hd.
  unfold catch, and_then, updateFile. simpl.
  rewrite Hdest.
  destruct (destSha state) as [drev|] eqn:Hdrev; [|discriminate].
  destruct (decide (sha dest_file = Some drev)) as [_|Hno]; [|contradiction].
  simpl. rewrite lookup_insert_ne by congruence. rewrite Hsrc.
  destruct (sourceSha state) as [srev|] eqn:Hsrev; [|discriminate].
  destruct (decide (sha source_file = Some srev)) as [Hyes|_]; [contradiction|].
  simpl. rewrite lookup_insert_eq, lookup_insert_ne by congruence.
  repeat split; try reflexivity. exact Hsrc.
Qed.

Lemma partial_commit_is_kept_witness :
  fst (atomicCommit both_present_state 1 stale_source_remote)
  = Throw "Transfer failed: Revision conflict: users.json"
  /\ content <$> files (snd (atomicCommit both_present_state 1 stale_source_remote))
       !! "archive.json" = Some "[1]"
  /\ files (snd (atomicCommit both_present_state 1 stale_source_remote)) !! "users.json"
     = Some {| content := "[1,2]"; sha := Some "s2" |}.
Proof.
  apply (partial_commit_is_kept both_present_state 1 stale_source_remote
           {| content := "[]"; sha := Some "d1" |}
           {| content := "[1,2]"; sha := Some "s2" |}).
  - discriminate.
  - reflexivity.
  - reflexivity.
  - vm_compute. reflexivity.
  - reflexivity.
  - vm_compute. reflexivity.
  - discriminate.
Defined.

(** *** Queries and shards *)

(** X10: [limit] returns a prefix of the documents: the first [count] of them
    (all when there are fewer) for a count that is not negative, and all but
    the last [-count] for a negative one. *)
Theorem limit_is_a_prefix (documents : list Document) (count : Z) :
  let kept := QueryEngine.limit documents count in
  (exists dropped, documents = kept ++ dropped)
  /\ ((0 <= count)%Z -> length kept = Nat.min (Z.to_nat count) (length documents))
  /\ ((count < 0)%Z -> length kept = length documents - Z.to_nat (- count)).
Proof.
  intros kept. unfold kept, QueryEngine.limit. split; [|split].
  - eexists. symmetry. apply firstn_skipn.
  - intros Hpos. destruct (Z.ltb_spec count 0) as [Hneg|_]; [lia|].
    rewrite length_firstn. lia.
  - intros Hneg. destruct (Z.ltb_spec count 0) as [_|Hpos]; [|lia].
    rewrite length_firstn. lia.
Qed.

Lemma find_first (p : Document -> bool) (documents : list Document) :
  match List.find p documents with
  | Some doc =>
      exists before after,
        documents = before ++ doc :: after
        /\ p doc = true
        /\ (forall d, In d before -> p d = false)
  | None => forall d, In d documents -> p d = false
  end.
Proof.
  induction documents as [|x xs IH]; simpl; [intros d []|].
  destruct (p x) eqn:Hx.
  - exists [], xs. repeat split; [exact Hx|intros d []].
  - destruct (List.find p xs) as [doc|].
    + destruct IH as (before & after & -> & Hdoc & Hbefore).
      exists (x :: before), after. repeat split; [exact Hdoc|].
      intros d [<-|Hin]; [exact Hx|exact (Hbefore d Hin)].
    + intros d [<-|Hin]; [exact Hx|exact (IH d Hin)].
Qed.

(** X11: [findOne] returns the first document the predicate accepts; it
    returns [null] when the predicate accepts none, and also when the first
    one accepted is a falsy value. *)
Theorem findOne_first_match (documents : list Document) (predicate : Document -> bool) :
  match QueryEngine.findOne documents predicate with
  | Some doc =>
      exists before after,
        documents = before ++ doc :: after
        /\ predicate doc = true
        /\ (forall d, In d before -> predicate d = false)
  | None =>
      (forall d, In d documents -> predicate d = false)
      \/ (exists before doc after,
            documents = before ++ doc :: after
            /\ predicate doc = true
            /\ (forall d, In d before -> predicate d = false)
            /\ truthy_value doc = false)
  end.
Proof.
  unfold QueryEngine.findOne.
  pose proof (find_first predicate documents) as Hfind.
  destruct (List.find predicate documents) as [doc|].
  - destruct (truthy_value doc) eqn:Ht; [exact Hfind|].
    right. destruct Hfind as (before & after & Heq & Hdoc & Hbefore).
    exists before, doc, after. auto.
  - left. exact Hfind.
Qed.




(** *** Formats *)

Section Formats.

Context `{Platform}.

Lemma getFormatter_supported (fmt : string) :
  (exists formatter, getFormatter fmt = Ok formatter) <-> In fmt supported.
Proof.
  unfold getFormatter, formatters, supported.
  destruct (decide (fmt = "yaml")) as [->|Hyaml].
  { rewrite lookup_insert_eq. split; [simpl; tauto|eauto]. }
  rewrite lookup_insert_ne by congruence.
  destruct (decide (fmt = "csv")) as [->|Hcsv].
  { rewrite lookup_insert_eq. split; [simpl; tauto|eauto]. }
  rewrite lookup_insert_ne by congruence.
  destruct (decide (fmt = "jsonl")) as [->|Hjsonl].
  { rewrite lookup_insert_eq. split; [simpl; tauto|eauto]. }
  rewrite lookup_insert_ne by congruence.
  destruct (decide (fmt = "json")) as [->|Hjson].
  { rewrite lookup_insert_eq. split; [simpl; tauto|eauto]. }
  rewrite lookup_insert_ne by congruence.
  rewrite lookup_empty. split.
  - intros (formatter & Heq). discriminate.
  - simpl. intros [?|[?|[?|[?|[]]]]]; congruence.
Qed.

Lemma detectFormat_supported (filename : string) : In (detectFormat filename) supported.
Proof.
  unfold detectFormat, supported.
  destruct (extension filename) as [ext|]; [|simpl; tauto].
  repeat match goal with
         | |- context [if ?b then _ else _] => destruct b
         end; simpl; tauto.
Qed.

(** X13: the converter has a codec for a format exactly when the format is
    [json], [jsonl], [csv] or [yaml] (so not for [yml]); the format detected
    from a file name is always one of these four, whatever the name. *)
Theorem detected_format_has_a_codec (fmt filename : string) :
  ((exists formatter, getFormatter fmt = Ok formatter) <-> In fmt supported)
  /\ (exists formatter, getFormatter (detectFormat filename) = Ok formatter)
  /\ getFormatter "yml" = Throw "Unsupported format: yml".
Proof.
  split; [apply getFormatter_supported|]. split.
  - apply getFormatter_supported, detectFormat_supported.
  - reflexivity.
Qed.

End Formats.

(** *** Lines and records of the tabular codec *)

Lemma includes_trimStart (c : ascii) (s : string) :
  Js.includes c s = false -> Js.includes c (Js.trimStart s) = false.
Proof.
  induction s as [|x s IH]; simpl; [auto|]. intros Hinc.
  apply orb_false_iff in Hinc as [Hx Hs].
  destruct (Js.is_white x); [exact (IH Hs)|]. simpl. rewrite Hx, Hs. reflexivity.
Qed.

Lemma includes_trimEnd (c : ascii) (s : string) :
  Js.includes c s = false -> Js.includes c (Js.trimEnd s) = false.
Proof.
  induction s as [|x s IH]; simpl; [auto|]. intros Hinc.
  apply orb_false_iff in Hinc as [Hx Hs]. specialize (IH Hs).
  destruct (Js.trimEnd s) as [|y t].
  - destruct (Js.is_white x); simpl; [reflexivity|]. rewrite Hx. reflexivity.
  - simpl in *. rewrite Hx, IH. reflexivity.
Qed.

Lemma includes_trim (c : ascii) (s : string) :
  Js.includes c s = false -> Js.includes c (Js.trim s) = false.
Proof. intros Hinc. apply includes_trimEnd, includes_trimStart, Hinc. Qed.

Lemma loop_without_quote (line : string) (result : list string) (current : string)
  (inQuotes : bool) :
  Forall (fun field => Js.includes Js.quote field = false) result ->
  Js.includes Js.quote current = false ->
  Forall (fun field => Js.includes Js.quote field = false)
    (parseCSVLine_loop line result current inQuotes).
Proof.
  revert result current inQuotes.
  induction line as [|char rest IH]; intros result current inQuotes Hres Hcur; simpl.
  - apply Forall_app. split; [exact Hres|]. constructor; [exact Hcur|constructor].
  - destruct (Ascii.eqb char Js.quote) eqn:Hq; [apply IH; assumption|].
    destruct (Ascii.eqb char Js.comma && negb inQuotes).
    + apply IH; [|reflexivity].
      apply Forall_app. split; [exact Hres|]. constructor; [exact Hcur|constructor].
    + apply IH; [exact Hres|].
      rewrite includes_app, Hcur. simpl. rewrite Hq. reflexivity.
Qed.

Lemma loop_not_empty (line : string) (result : list string) (current : string)
  (inQuotes : bool) :
  parseCSVLine_loop line result current inQuotes <> [].
Proof.
  revert result current inQuotes.
  induction line as [|char rest IH]; intros result current inQuotes; simpl.
  - destruct result; discriminate.
  - destruct (Ascii.eqb char Js.quote); [apply IH|].
    destruct (Ascii.eqb char Js.comma && negb inQuotes); apply IH.
Qed.

(** X14: a line always parses to at least one field, and no field of a
    parsed line holds a quote character, whatever the line: quote
    characters only switch the quoted state. *)
Theorem parseCSVLine_never_yields_quote (line : string) :
  parseCSVLine line <> []
  /\ Forall (fun field => Js.includes Js.quote field = false) (parseCSVLine line).
Proof.
  unfold parseCSVLine. split.
  - pose proof (loop_not_empty line [] EmptyString false) as Hne.
    destruct (parseCSVLine_loop line [] EmptyString false); [contradiction|discriminate].
  - apply Forall_map.
    eapply Forall_impl; [apply loop_without_quote; [constructor|reflexivity]|].
    intros field Hfield. simpl. apply includes_trim, Hfield.
Qed.







(** *** Field mapping *)









(** *** Sequences of documents through the codecs *)

Lemma join_cons (sep x y : string) (rest : list string) :
  Js.join sep (x :: y :: rest) = x +:+ (sep +:+ Js.join sep (y :: rest)).
Proof. reflexivity. Qed.

Lemma split_join (lines : list string) (ending : string) :
  lines <> [] ->
  Forall (fun line => Js.includes Js.newline line = false) lines ->
  Js.split Js.newline (Js.join Js.nl lines +:+ String Js.newline ending)
  = lines ++ Js.split Js.newline ending.
Proof.
  intros Hne Hall. induction Hall as [|x rest Hx Hrest IH]; [contradiction|].
  destruct rest as [|y rest].
  - simpl Js.join. rewrite (split_append _ _ _ Hx). reflexivity.
  - rewrite join_cons. unfold Js.nl at 1.
    rewrite sapp_assoc, sapp_cons, sapp_nil_l, sapp_cons.
    rewrite (split_append _ _ _ Hx). rewrite IH by discriminate. reflexivity.
Qed.

Lemma split_join_open (lines : list string) :
  lines <> [] ->
  Forall (fun line => Js.includes Js.newline line = false) lines ->
  Js.split Js.newline (Js.join Js.nl lines) = lines.
Proof.
  intros Hne Hall. induction Hall as [|x rest Hx Hrest IH]; [contradiction|].
  destruct rest as [|y rest].
  - simpl Js.join. apply split_no_separator, Hx.
  - rewrite join_cons. unfold Js.nl at 1. rewrite sapp_cons, sapp_nil_l.
    rewrite (split_append _ _ _ Hx). rewrite IH by discriminate. reflexivity.
Qed.

Lemma filter_one_line (lines : list string) :
  Forall one_line lines ->
  List.filter (fun line => negb (Js.blank line)) lines = lines.
Proof.
  induction 1 as [|x rest [_ Hx] _ IH]; simpl; [reflexivity|].
  rewrite Hx, IH. reflexivity.
Qed.

Lemma one_line_no_newline (lines : list string) :
  Forall one_line lines ->
  Forall (fun line => Js.includes Js.newline line = false) lines.
Proof. intros Hall. eapply Forall_impl; [exact Hall|]. intros line [Hn _]. exact Hn. Qed.

(** Lines joined by line feeds are read back one by one, with or without a
    line feed after the last. *)
Lemma non_blank_lines_joined (lines : list string) :
  Forall one_line lines ->
  non_blank_lines (Js.join Js.nl lines) = lines
  /\ (lines <> [] -> non_blank_lines (Js.join Js.nl lines +:+ Js.nl) = lines).
Proof.
  intros Hall. unfold non_blank_lines. split.
  - destruct lines as [|x rest]; [reflexivity|].
    rewrite split_join_open by (try discriminate; apply one_line_no_newline, Hall).
    apply filter_one_line, Hall.
  - intros Hne. unfold Js.nl at 2.
    rewrite split_join by (try assumption; apply one_line_no_newline, Hall).
    simpl Js.split. rewrite List.filter_app, (filter_one_line _ Hall). simpl.
    apply app_nil_r.
Qed.

Lemma joined_not_blank (lines : list string) (ending : string) :
  lines <> [] -> Forall one_line lines -> Js.blank (Js.join Js.nl lines +:+ ending) = false.
Proof.
  intros Hne Hall. destruct Hall as [|x rest [_ Hx] _]; [contradiction|].
  rewrite blank_all_white in *.
  destruct rest as [|y rest].
  - simpl Js.join. rewrite all_white_app, Hx. reflexivity.
  - rewrite join_cons, !all_white_app, Hx. reflexivity.
Qed.

Section Sequences.

Context `{Platform}.

Lemma mapM_parse_lines (documents : list Document) :
  Forall (fun doc => JSON_parse (JSON_stringify doc 0) = Ok doc) documents ->
  mapM JSON_parse (map (fun doc => JSON_stringify doc 0) documents) = Ok documents.
Proof.
  induction 1 as [|d rest Hd _ IH]; simpl; [reflexivity|].
  rewrite Hd. simpl. rewrite IH. reflexivity.
Qed.

Lemma mapM_index_parse_lines (documents : list Document) (i : nat)
  (handler : nat -> string -> Result JValue) :
  Forall (fun doc => JSON_parse (JSON_stringify doc 0) = Ok doc) documents ->
  mapM_index (fun line index => try_catch (JSON_parse line) (handler index)) i
    (map (fun doc => JSON_stringify doc 0) documents)
  = Ok documents.
Proof.
  intros Hall. revert i. induction Hall as [|d rest Hd _ IH]; intros i; simpl; [reflexivity|].
  rewrite Hd. simpl. rewrite IH. reflexivity.
Qed.

(** X17: the line-delimited codec reads back any sequence of documents it
    wrote, the empty one included, when [JSON.stringify] prints each
    document on one line that is not blank and [JSON.parse] reads that line
    back to the document. *)
Theorem jsonl_sequence_roundtrip (documents : list Document) (options : FormatOptions) :
  Forall (fun doc => one_line (JSON_stringify doc 0)) documents ->
  Forall (fun doc => JSON_parse (JSON_stringify doc 0) = Ok doc) documents ->
  bind (serialize JSONLFormatter documents options)
    (fun text => parse JSONLFormatter text options)
  = Ok documents.
Proof.
  intros Hlines Hparse. simpl. unfold JSONLFormatter_parse.
  destruct documents as [|d rest]; [reflexivity|].
  set (lines := map (fun doc => JSON_stringify doc 0) (d :: rest)).
  assert (Hall : Forall one_line lines) by (apply Forall_map; exact Hlines).
  change (if Nat.ltb 0 (length (d :: rest)) then Js.nl else EmptyString) with Js.nl.
  rewrite joined_not_blank by (try discriminate; exact Hall).
  destruct (non_blank_lines_joined lines Hall) as [_ Hread].
  rewrite Hread by discriminate.
  apply (mapM_index_parse_lines (d :: rest) 0
           (fun index message =>
              Throw ("Invalid JSONL at line " +:+ pretty (index + 1) +:+ ": " +:+ message))).
  exact Hparse.
Qed.

(** X18: the whole-document codec writes one document bare and any other
    sequence as an array, and reads back what it wrote when [JSON.parse]
    reads the text of [JSON.stringify] back to the value: every sequence
    comes back as it was, but for a sequence made of one array, which comes
    back as the elements of that array. *)
Theorem json_sequence_roundtrip (documents : list Document) (options : FormatOptions) :
  let data := match documents with
              | [d] => d
              | _ => JArr documents
              end in
  let text := JSON_stringify data (default 2 (indent options)) in
  Js.blank text = false ->
  JSON_parse text = Ok data ->
  serialize JSONFormatter documents options = Ok text
  /\ parse JSONFormatter text options = Ok (read_back documents).
Proof.
  intros data text Hblank Hparse. split; [reflexivity|].
  simpl. unfold JSONFormatter_parse. rewrite Hblank, Hparse. simpl.
  unfold data, read_back. destruct documents as [|d [|d' rest]]; try reflexivity.
  destruct d; reflexivity.
Qed.

End Sequences.

Section SequenceRuns.

Existing Instance reference_platform.

Lemma jsonl_sequence_roundtrip_witness :
  bind (serialize JSONLFormatter [user 1 30; user 2 20] default_format_options)
    (fun text => parse JSONLFormatter text default_format_options)
  = Ok [user 1 30; user 2 20].
Proof.
  apply jsonl_sequence_roundtrip.
  - repeat constructor.
  - repeat constructor.
Defined.

Lemma json_sequence_roundtrip_witness :
  parse JSONFormatter (Json.stringify (JArr [JNum 1; JNum 2]) 2) default_format_options
  = Ok [JNum 1; JNum 2].
Proof.
  destruct (json_sequence_roundtrip [JArr [JNum 1; JNum 2]] default_format_options)
    as [_ Hread]; [reflexivity|reflexivity|exact Hread].
Defined.

End SequenceRuns.

(** *** Tables through the tabular codec *)








(** *** What a transfer writes *)

Lemma files_store_file (path text : string) (r : Remote) (p : string) :
  files (store_file path text r) !! p
  = if decide (path = p)
    then Some {| content := text; sha := Some (fresh_revision r) |}
    else files r !! p.
Proof.
  unfold store_file. simpl. destruct (decide (path = p)) as [->|Hne].
  - apply lookup_insert_eq.
  - apply lookup_insert_ne, Hne.
Qed.

Lemma files_record_call (c : ApiCall) (r : Remote) : files (record_call c r) = files r.
Proof. reflexivity. Qed.

Lemma updateFile_frame (path text message : string) (revision : option string)
  (r : Remote) (p : string) :
  p <> path ->
  files (snd (updateFile path text message revision r)) !! p = files r !! p.
Proof.
  intros Hne. unfold updateFile. simpl.
  destruct (files r !! path) as [f|], revision as [rev|]; simpl; try reflexivity.
  destruct (decide (sha f = Some rev)); simpl; [|reflexivity].
  apply lookup_insert_ne. congruence.
Qed.

Lemma createFile_frame (path text message : string) (r : Remote) (p : string) :
  p <> path ->
  files (snd (createFile path text message r)) !! p = files r !! p.
Proof.
  intros Hne. unfold createFile. simpl.
  destruct (files r !! path); simpl; [reflexivity|].
  apply lookup_insert_ne. congruence.
Qed.

Lemma updateFile_current (path text message : string) (f : File) (r : Remote) :
  files r !! path = Some f ->
  is_Some (sha f) ->
  updateFile path text message (sha f) r
  = (Ok tt, store_file path text (record_call (UpdateFile path text message (sha f)) r)).
Proof.
  intros Hf [rev Hrev]. rewrite Hrev. unfold updateFile. simpl. rewrite Hf.
  rewrite decide_True by exact Hrev. reflexivity.
Qed.

Lemma createFile_absent (path text message : string) (r : Remote) :
  files r !! path = None ->
  createFile path text message r
  = (Ok tt, store_file path text (record_call (CreateFile path text message) r)).
Proof. intros Hf. unfold createFile. simpl. rewrite Hf. reflexivity. Qed.

Lemma present_is_Some (revision : option string) :
  present revision = true -> is_Some revision.
Proof. destruct revision; [eauto|discriminate]. Qed.

Lemma read_available (r : Remote) (path : string) :
  path ∉ failing r -> read r path = Fulfilled (files r !! path).
Proof. intros Hok. unfold read. rewrite decide_False by exact Hok. reflexivity. Qed.

Section Moves.

Context `{Platform}.

Local Open Scope api_scope.

Lemma atomicCommit_frame (state : TransactionState) (movedCount : nat) (r : Remote)
  (p : string) :
  p <> sourcePath state -> p <> destPath state ->
  files (snd (atomicCommit state movedCount r)) !! p = files r !! p.
Proof.
  intros Hs Hd. rewrite atomicCommit_shapes.
  destruct (present (sourceSha state)); [|reflexivity].
  destruct (present (destSha state)); unfold catch, and_then.
  - pose proof (updateFile_frame (destPath state) (destContent state)
                  ("Transfer: Moved " +:+ pretty movedCount +:+ " documents from "
                   +:+ sourcePath state +:+ " to " +:+ destPath state)
                  (destSha state) r p Hd) as H1.
    destruct (updateFile (destPath state) _ _ (destSha state) r) as [[[]|e] r1];
      simpl in *; [|exact H1].
    pose proof (updateFile_frame (sourcePath state) (sourceContent state)
                  ("Transfer: Moved " +:+ pretty movedCount +:+ " documents from "
                   +:+ sourcePath state +:+ " to " +:+ destPath state)
                  (sourceSha state) r1 p Hs) as H2.
    destruct (updateFile (sourcePath state) _ _ (sourceSha state) r1) as [[[]|e] r2];
      simpl in *; congruence.
  - pose proof (createFile_frame (destPath state) (destContent state)
                  ("Transfer: Moved " +:+ pretty movedCount +:+ " documents from "
                   +:+ sourcePath state +:+ " to " +:+ destPath state)
                  r p Hd) as H1.
    destruct (createFile (destPath state) _ _ r) as [[[]|e] r1];
      simpl in *; [|exact H1].
    pose proof (updateFile_frame (sourcePath state) (sourceContent state)
                  ("Transfer: Moved " +:+ pretty movedCount +:+ " documents from "
                   +:+ sourcePath state +:+ " to " +:+ destPath state)
                  (sourceSha state) r1 p Hs) as H2.
    destruct (updateFile (sourcePath state) _ _ (sourceSha state) r1) as [[[]|e] r2];
      simpl in *; congruence.
Qed.

Lemma transfer_settled_frame (sourceFormat destFormat s d : string)
  (options : TransferOptions) (sourceFile destFile : Settled (option File))
  (r : Remote) (p : string) :
  p <> s -> p <> d ->
  files (snd (transfer_settled sourceFormat destFormat s d options sourceFile destFile r))
    !! p
  = files r !! p.
Proof.
  intros Hs Hd. unfold transfer_settled.
  destruct (processTransfer _ _) as [matching remaining].
  destruct (Nat.eqb (length matching) 0); [reflexivity|].
  destruct (conversion options) as [conv|]; unfold and_then, lift.
  - destruct (convertDocuments _ _); [|reflexivity].
    destruct (convertDocuments _ _); [|reflexivity].
    destruct (convertDocuments _ _); [|reflexivity].
    apply atomicCommit_frame; assumption.
  - destruct (serializeContent _ _); [|reflexivity].
    destruct (serializeContent _ _); [|reflexivity].
    apply atomicCommit_frame; assumption.
Qed.

(** X20: whatever its options and its outcome, a transfer leaves every
    path other than its source and its destination as it was; a call that
    is let in leaves the lock of its pair free when it ends, also when it
    fails, and a call that is refused changes neither the store nor the
    lock that refused it. *)
Theorem transfer_touches_only_its_pair (s d : string) (options : TransferOptions)
  (locks : gmap string bool) (r : Remote) :
  let '(outcome, locks', r') := transfer s d options locks r in
  (forall p, p <> s -> p <> d -> files r' !! p = files r !! p)
  /\ (if locked locks (lockKey s d)
      then locks' = locks /\ r' = r
      else locks' = delete (lockKey s d) locks).
Proof.
  unfold transfer, transfer_enter.
  destruct (locked locks (lockKey s d)) eqn:Hlock.
  - split; [reflexivity|split; reflexivity].
  - unfold executeAtomicTransfer.
    pose proof (transfer_settled_frame (detectFormat s) (detectFormat d) s d options
                  (read r s) (read r d) r) as Hframe.
    destruct (transfer_settled _ _ s d options (read r s) (read r d) r) as [outcome r'].
    split.
    + intros p Hs Hd. exact (Hframe p Hs Hd).
    + unfold transfer_exit. apply delete_insert_eq.
Qed.

(** X2: a transfer without conversion options between two different paths,
    with the source present under a revision, the destination absent or
    present under a revision, no transport failure and no other call
    holding the lock.  When the predicate accepts some document, the call
    returns normally; the destination then holds the documents it had
    followed by the accepted ones (transformed, when a transform is given),
    written in the format of its path, and the source holds the documents
    that were not accepted, in source order, written in the format of its
    path. *)
Theorem transfer_moves_matching (s d : string) (options : TransferOptions)
  (locks : gmap string bool) (r : Remote) (fs : File) (sc dc : string) :
  let sourceDocs := parseFileContent (Fulfilled (Some fs)) (detectFormat s) in
  let destDocs := parseFileContent (Fulfilled (files r !! d)) (detectFormat d) in
  let matching := List.filter (predicate options) sourceDocs in
  let remaining := List.filter (fun doc => negb (predicate options doc)) sourceDocs in
  let moved := match transfer_transform options with
               | Some f => map f matching
               | None => matching
               end in
  s <> d ->
  locked locks (lockKey s d) = false ->
  s ∉ failing r -> d ∉ failing r ->
  files r !! s = Some fs -> present (sha fs) = true ->
  (forall fd, files r !! d = Some fd -> present (sha fd) = true) ->
  conversion options = None ->
  matching <> [] ->
  serializeContent remaining (detectFormat s) = Ok sc ->
  serializeContent (destDocs ++ moved) (detectFormat d) = Ok dc ->
  let '(outcome, _, r') := transfer s d options locks r in
  outcome = Ok tt
  /\ content <$> files r' !! s = Some sc
  /\ content <$> files r' !! d = Some dc.
Proof.
  intros sourceDocs destDocs matching remaining moved
    Hsd Hlock Hsok Hdok Hfs Hsha Hdsha Hconv Hsome Hsc Hdc.
  unfold transfer, transfer_enter. rewrite Hlock.
  unfold executeAtomicTransfer.
  rewrite (read_available r s Hsok), (read_available r d Hdok), Hfs.
  unfold transfer_settled. fold sourceDocs destDocs.
  rewrite processTransfer_filter. fold matching remaining.
  destruct matching as [|m ms] eqn:Hm; [contradiction|].
  cbn [length Nat.eqb]. rewrite Hconv. fold moved.
  unfold and_then, lift. rewrite Hsc, Hdc.
  rewrite atomicCommit_shapes. cbn [sourceSha destSha sourcePath destPath
                                     sourceContent destContent captured_sha].
  rewrite Hsha.
  set (message := "Transfer: Moved " +:+ pretty (length moved) +:+ " documents from "
                  +:+ s +:+ " to " +:+ d).
  destruct (files r !! d) as [fd|] eqn:Hfd.
  - rewrite (Hdsha fd eq_refl). unfold catch, and_then.
    rewrite (updateFile_current d dc message fd r Hfd)
      by (apply present_is_Some, Hdsha; reflexivity).
    set (r1 := store_file d dc (record_call (UpdateFile d dc message (sha fd)) r)).
    assert (Hfs1 : files r1 !! s = Some fs).
    { unfold r1. rewrite files_store_file.
      destruct (decide (d = s)); [congruence|exact Hfs]. }
    rewrite (updateFile_current s sc message fs r1 Hfs1)
      by (apply present_is_Some, Hsha).
    split; [reflexivity|]. split.
    + rewrite files_store_file, decide_True by reflexivity. reflexivity.
    + rewrite files_store_file, decide_False, files_record_call by congruence.
      unfold r1. rewrite files_store_file, decide_True by reflexivity. reflexivity.
  - simpl present. unfold catch, and_then.
    rewrite (createFile_absent d dc message r Hfd).
    set (r1 := store_file d dc (record_call (CreateFile d dc message) r)).
    assert (Hfs1 : files r1 !! s = Some fs).
    { unfold r1. rewrite files_store_file.
      destruct (decide (d = s)); [congruence|exact Hfs]. }
    rewrite (updateFile_current s sc message fs r1 Hfs1)
      by (apply present_is_Some, Hsha).
    split; [reflexivity|]. split.
    + rewrite files_store_file, decide_True by reflexivity. reflexivity.
    + rewrite files_store_file, decide_False, files_record_call by congruence.
      unfold r1. rewrite files_store_file, decide_True by reflexivity. reflexivity.
Qed.

End Moves.

Section MoveRuns.

Existing Instance reference_platform.

Lemma transfer_moves_matching_witness :
  let '(outcome, _, r) :=
    transfer "users.jsonl" "seniors.jsonl" (move_older_than 25) ∅ users_remote in
  outcome = Ok tt
  /\ content <$> files r !! "users.jsonl" = Some (Json.stringify (user 2 20) 0 +:+ Js.nl)
  /\ content <$> files r !! "seniors.jsonl" = Some (Json.stringify (user 1 30) 0 +:+ Js.nl).
Proof.
  apply (transfer_moves_matching "users.jsonl" "seniors.jsonl" (move_older_than 25) ∅
           users_remote {| content := users_jsonl; sha := Some "s1" |}).
  - discriminate.
  - reflexivity.
  - apply (bool_decide_unpack _). vm_compute. exact I.
  - apply (bool_decide_unpack _). vm_compute. exact I.
  - reflexivity.
  - reflexivity.
  - intros fd Hfd. vm_compute in Hfd. discriminate.
  - reflexivity.
  - vm_compute. discriminate.
  - vm_compute. reflexivity.
  - vm_compute. reflexivity.
Defined.

End MoveRuns.

(** *** Documents and collections of the storage manager *)

Lemma length_sapp (a b : string) :
  String.length (a +:+ b) = String.length a + String.length b.
Proof. induction a as [|c a IH]; simpl; [reflexivity|]. rewrite IH. reflexivity. Qed.

Lemma endsWith_suffix (suffix s : string) :
  Js.endsWith suffix s = true <-> exists pre, s = pre +:+ suffix.
Proof.
  induction s as [|c s IH]; cbn [Js.endsWith].
  - rewrite orb_false_r. split.
    + intros Heq. apply String.eqb_eq in Heq as <-. exists EmptyString. reflexivity.
    + intros (pre & Heq). destruct pre; [destruct suffix; [reflexivity|discriminate]|].
      discriminate.
  - rewrite orb_true_iff, IH. split.
    + intros [Heq|(pre & ->)].
      * apply String.eqb_eq in Heq as <-. exists EmptyString. reflexivity.
      * exists (String c pre). reflexivity.
    + intros (pre & Heq). destruct pre as [|c' pre].
      * left. rewrite sapp_nil_l in Heq. subst suffix. apply String.eqb_refl.
      * right. rewrite sapp_cons in Heq. injection Heq as _ ->. exists pre. reflexivity.
Qed.

Lemma failing_updateFile (path text message : string) (revision : option string)
  (r : Remote) :
  failing (snd (updateFile path text message revision r)) = failing r.
Proof.
  unfold updateFile. simpl.
  destruct (files r !! path) as [f|], revision as [rev|]; try reflexivity.
  destruct (decide (sha f = Some rev)); reflexivity.
Qed.

Lemma failing_createFile (path text message : string) (r : Remote) :
  failing (snd (createFile path text message r)) = failing r.
Proof. unfold createFile. simpl. destruct (files r !! path); reflexivity. Qed.

Lemma read_existing_available (r : Remote) (path : string) :
  path ∉ failing r -> read_existing r path = files r !! path.
Proof. intros Hok. unfold read_existing. rewrite (read_available r path Hok). reflexivity. Qed.

(** The text a queued write leaves under its path. *)
Lemma write_request_stores (w : QueuedWrite) (r : Remote) :
  qw_path w ∉ failing r ->
  (forall f, files r !! qw_path w = Some f -> is_Some (sha f)) ->
  let existing := read_existing r (qw_path w) in
  let written :=
    match existing with
    | Some f => if qw_append w then content f +:+ qw_content w else qw_content w
    | None => qw_content w
    end in
  exists r' rev,
    write_request w existing r = (Ok tt, r')
    /\ files r' !! qw_path w = Some {| content := written; sha := Some rev |}
    /\ failing r' = failing r
    /\ (forall p, p <> qw_path w -> files r' !! p = files r !! p).
Proof.
  intros Hok Hsha existing written. subst written existing.
  rewrite (read_existing_available r _ Hok). unfold write_request.
  destruct (files r !! qw_path w) as [f|] eqn:Hf.
  - destruct (qw_append w).
    + rewrite (updateFile_current _ _ _ f r Hf (Hsha f eq_refl)).
      eexists _, _. split; [reflexivity|]. split; [|split].
      * rewrite files_store_file, decide_True by reflexivity. reflexivity.
      * reflexivity.
      * intros p Hp. rewrite files_store_file, decide_False by congruence. reflexivity.
    + rewrite (updateFile_current _ _ _ f r Hf (Hsha f eq_refl)).
      eexists _, _. split; [reflexivity|]. split; [|split].
      * rewrite files_store_file, decide_True by reflexivity. reflexivity.
      * reflexivity.
      * intros p Hp. rewrite files_store_file, decide_False by congruence. reflexivity.
  - rewrite (createFile_absent _ _ _ r Hf).
    eexists _, _. split; [reflexivity|]. split; [|split].
    + rewrite files_store_file, decide_True by reflexivity. reflexivity.
    + reflexivity.
    + intros p Hp. rewrite files_store_file, decide_False by congruence. reflexivity.
Qed.

(** A write enqueued on a manager at rest and run to its end. *)
Lemma lone_write_runs (caller : nat) (w : QueuedWrite) (m : StorageManager) :
  idle m ->
  let existing := read_existing (store m) (qw_path w) in
  let outcome := fst (write_request w existing (store m)) in
  exists m',
    queue_run (enqueueWrite caller w m) settled_write = Some m'
    /\ futures m' = futures m ++ [(caller, outcome)]
    /\ store m' = snd (write_request w existing (store m))
    /\ (outcome = Ok tt -> idle m').
Proof.
  intros (Hflag & Hd & Hq) existing outcome. unfold settled_write.
  unfold enqueueWrite, processWriteQueue, drain_loop. simpl.
  rewrite Hflag, Hq, Hd. simpl. unfold read_done. simpl. unfold write_done. simpl.
  fold existing. subst outcome.
  destruct (write_request w existing (store m)) as [[[]|e] r'] eqn:Hw; simpl.
  - eexists. split; [reflexivity|]. simpl. repeat split; reflexivity.
  - eexists. split; [reflexivity|]. simpl. repeat split; try reflexivity. discriminate.
Qed.

(** A write that goes through, on a manager at rest. *)
Lemma lone_write_stores (caller : nat) (w : QueuedWrite) (m : StorageManager) :
  idle m ->
  qw_path w ∉ failing (store m) ->
  (forall f, files (store m) !! qw_path w = Some f -> is_Some (sha f)) ->
  let written :=
    match files (store m) !! qw_path w with
    | Some f => if qw_append w then content f +:+ qw_content w else qw_content w
    | None => qw_content w
    end in
  exists m' rev,
    queue_run (enqueueWrite caller w m) settled_write = Some m'
    /\ futures m' = futures m ++ [(caller, Ok tt)]
    /\ idle m'
    /\ files (store m') !! qw_path w = Some {| content := written; sha := Some rev |}
    /\ failing (store m') = failing (store m)
    /\ (forall p, p <> qw_path w -> files (store m') !! p = files (store m) !! p).
Proof.
  intros Hidle Hok Hsha written.
  destruct (write_request_stores w (store m) Hok Hsha) as (r' & rev & Hw & Hfile & Hfail & Hframe).
  destruct (lone_write_runs caller w m Hidle) as (m' & Hrun & Hfut & Hstore & Hrest).
  rewrite Hw in Hfut, Hstore, Hrest. simpl in Hfut, Hstore, Hrest.
  exists m', rev. rewrite Hstore. split; [exact Hrun|]. split; [exact Hfut|].
  split; [exact (Hrest eq_refl)|]. split; [|split; [exact Hfail|exact Hframe]].
  rewrite Hfile. unfold written. rewrite (read_existing_available _ _ Hok). reflexivity.
Qed.

Section StorageProperties.

Context `{Platform} `{Crypto}.

Local Open Scope api_scope.

Lemma mapM_after_read (items : list Document) :
  mapM (fun doc => Storage.processDataAfterRead doc None) items = Ok items.
Proof.
  induction items as [|d rest IH]; [reflexivity|]. cbn [mapM]. rewrite IH. reflexivity.
Qed.

Lemma readCollection_keeps_store (path : string) (options : option OperationOptions)
  (r : Remote) :
  snd (Storage.readCollection path options r) = r.
Proof.
  unfold Storage.readCollection, and_then, getFile, lift, ret.
  destruct (read r path) as [[file|]|e]; try reflexivity.
  destruct (Storage.parseContent _ _) as [[]|e]; try reflexivity;
    destruct (Storage.processDataAfterRead _ _); reflexivity.
Qed.

(** What [readCollection] returns depends on the failing paths and on the
    file under its path only. *)
Lemma readCollection_depends (path : string) (options : option OperationOptions)
  (r r' : Remote) :
  failing r' = failing r ->
  files r' !! path = files r !! path ->
  fst (Storage.readCollection path options r') = fst (Storage.readCollection path options r).
Proof.
  intros Hfail Hfile.
  unfold Storage.readCollection, and_then, getFile, lift, ret, read.
  rewrite Hfail, Hfile.
  destruct (decide (path ∈ failing r)); [reflexivity|].
  destruct (files r !! path) as [file|]; [|reflexivity].
  destruct (Storage.parseContent _ _) as [[]|e]; try reflexivity;
    destruct (Storage.processDataAfterRead _ _); reflexivity.
Qed.

Lemma readCollection_of_content (path : string) (r : Remote) (f : File)
  (documents : list Document) :
  path ∉ failing r ->
  files r !! path = Some f ->
  Storage.parseContent (content f) (Storage.getFormat path None) = Ok (JArr documents) ->
  Storage.readCollection path None r = (Ok documents, r).
Proof.
  intros Hok Hf Hparse.
  unfold Storage.readCollection, and_then, getFile, lift.
  rewrite (read_available r path Hok), Hf, Hparse. simpl.
  rewrite mapM_after_read. reflexivity.
Qed.

(** X22: the storage manager writes a collection under a line-delimited
    path as the lines of its documents joined by line feeds, with no line
    feed after the last.  It reads that text back to the documents, and so
    does the line-delimited codec the transfer uses; in the other direction
    the storage manager reads back the text that codec writes, whenever
    [JSON.stringify] prints each document on one line that is not blank and
    [JSON.parse] reads that line back to the document. *)
Theorem jsonl_text_is_shared (documents : list Document) (options : FormatOptions) :
  Forall (fun doc => one_line (JSON_stringify doc 0)) documents ->
  Forall (fun doc => JSON_parse (JSON_stringify doc 0) = Ok doc) documents ->
  let written := Storage.serializeContent (JArr documents) "jsonl" in
  Storage.parseContent written "jsonl" = Ok (JArr documents)
  /\ parse JSONLFormatter written options = Ok documents
  /\ bind (serialize JSONLFormatter documents options)
       (fun text => Storage.parseContent text "jsonl")
     = Ok (JArr documents).
Proof.
  intros Hlines Hparse written. unfold written, Storage.serializeContent, Storage.parseContent.
  simpl String.eqb. cbv iota.
  set (lines := map (fun doc => JSON_stringify doc 0) documents).
  assert (Hall : Forall one_line lines) by (apply Forall_map; exact Hlines).
  destruct (non_blank_lines_joined lines Hall) as [Hopen Hclosed].
  split; [|split].
  - rewrite Hopen. unfold lines. rewrite (mapM_parse_lines documents Hparse). reflexivity.
  - simpl. unfold JSONLFormatter_parse.
    destruct documents as [|d rest]; [reflexivity|].
    rewrite <- (sapp_nil_r (Js.join Js.nl lines)) at 1.
    rewrite joined_not_blank by (try discriminate; exact Hall).
    rewrite Hopen.
    apply (mapM_index_parse_lines (d :: rest) 0
             (fun index message =>
                Throw ("Invalid JSONL at line " +:+ pretty (index + 1) +:+ ": " +:+ message))).
    exact Hparse.
  - simpl. destruct documents as [|d rest]; [reflexivity|].
    change (if Nat.ltb 0 (length (d :: rest)) then Js.nl else EmptyString) with Js.nl.
    fold lines. rewrite Hclosed by discriminate.
    unfold lines. rewrite (mapM_parse_lines (d :: rest) Hparse). reflexivity.
Qed.

(** X23: a collection written through the queue of a manager at rest, the
    write run to its end, is read back as it was written, whenever the
    text written parses back to the documents (see X22 for line-delimited
    paths): the file is created when absent and updated under its revision
    when present, and the call resolves. *)
Theorem collection_written_is_read_back (caller : nat) (path : string)
  (documents : list Document) (m : StorageManager) :
  let fmt := Storage.getFormat path None in
  idle m ->
  path ∉ failing (store m) ->
  (forall f, files (store m) !! path = Some f -> is_Some (sha f)) ->
  Storage.parseContent (Storage.serializeContent (JArr documents) fmt) fmt
  = Ok (JArr documents) ->
  exists m',
    queue_run (Storage.writeCollection caller path documents m) settled_write = Some m'
    /\ futures m' = futures m ++ [(caller, Ok tt)]
    /\ idle m'
    /\ Storage.readCollection path None (store m') = (Ok documents, store m').
Proof.
  intros fmt Hidle Hok Hsha Hparse. unfold Storage.writeCollection.
  set (w := {| qw_path := path;
               qw_content := Storage.serializeContent (JArr documents) fmt;
               qw_message := "Write collection: " +:+ path;
               qw_append := false |}).
  destruct (lone_write_stores caller w m Hidle Hok Hsha)
    as (m' & rev & Hrun & Hfut & Hidle' & Hfile & Hfail & _).
  exists m'. split; [exact Hrun|]. split; [exact Hfut|]. split; [exact Hidle'|].
  simpl in Hfile.
  eapply readCollection_of_content; [rewrite Hfail; exact Hok|exact Hfile|].
  simpl. destruct (files (store m) !! path); exact Hparse.
Qed.

End StorageProperties.

(** *** Appending to a collection *)

Lemma concat_lines (lines : list string) :
  lines <> [] ->
  String.concat EmptyString (map (fun line => line +:+ Js.nl) lines)
  = Js.join Js.nl lines +:+ Js.nl.
Proof.
  intros Hne. induction lines as [|x rest IH]; [contradiction|].
  destruct rest as [|y rest]; [reflexivity|].
  rewrite join_cons.
  change (String.concat EmptyString (map (fun line => line +:+ Js.nl) (x :: y :: rest)))
    with ((x +:+ Js.nl)
          +:+ String.concat EmptyString (map (fun line => line +:+ Js.nl) (y :: rest))).
  rewrite IH by discriminate. rewrite !sapp_assoc. reflexivity.
Qed.

Lemma concat_app (xs ys : list string) :
  String.concat EmptyString (xs ++ ys)
  = String.concat EmptyString xs +:+ String.concat EmptyString ys.
Proof.
  induction xs as [|x xs IH]; [reflexivity|].
  destruct xs as [|x' xs].
  - simpl app. destruct ys as [|y ys]; [simpl; rewrite sapp_nil_r; reflexivity|].
    reflexivity.
  - change (String.concat EmptyString ((x :: x' :: xs) ++ ys))
      with (x +:+ String.concat EmptyString ((x' :: xs) ++ ys)).
    rewrite IH.
    change (String.concat EmptyString (x :: x' :: xs))
      with (x +:+ String.concat EmptyString (x' :: xs)).
    rewrite sapp_assoc. reflexivity.
Qed.

Section Appends.

Context `{Platform} `{Crypto}.

Local Open Scope api_scope.

Lemma getFormat_jsonl (path : string) :
  Js.endsWith ".jsonl" path = true -> Storage.getFormat path None = "jsonl".
Proof. intros Hends. unfold Storage.getFormat. simpl. rewrite Hends. reflexivity. Qed.

Lemma getFormat_json (path : string) :
  Js.endsWith ".jsonl" path = false -> Storage.getFormat path None = "json".
Proof. intros Hends. unfold Storage.getFormat. simpl. rewrite Hends. reflexivity. Qed.

Lemma appendToCollection_jsonl (iv : nat -> string) (caller : nat) (path : string)
  (data : Document) (m : StorageManager) :
  Js.endsWith ".jsonl" path = true ->
  path ∉ failing (store m) ->
  Storage.appendToCollection iv caller path data None m
  = enqueueWrite caller
      {| qw_path := path;
         qw_content := jsonl_line data;
         qw_message := "Append to collection: " +:+ path;
         qw_append := true |} m.
Proof.
  intros Hends Hok. unfold Storage.appendToCollection. simpl.
  rewrite (getFormat_jsonl path Hends).
  unfold Storage.append_line, and_then, getFile.
  rewrite (read_available _ _ Hok). reflexivity.
Qed.

(** One awaited append under a line-delimited path: the line of the
    document is added after the text the file had. *)
Lemma append_adds_a_line (iv : nat -> string) (caller : nat) (path : string)
  (data : Document) (m : StorageManager) :
  Js.endsWith ".jsonl" path = true ->
  idle m ->
  path ∉ failing (store m) ->
  (forall f, files (store m) !! path = Some f -> is_Some (sha f)) ->
  exists m' rev,
    queue_run (Storage.appendToCollection iv caller path data None m) settled_write = Some m'
    /\ futures m' = futures m ++ [(caller, Ok tt)]
    /\ idle m'
    /\ failing (store m') = failing (store m)
    /\ files (store m') !! path
       = Some {| content := match files (store m) !! path with
                            | Some f => content f +:+ jsonl_line data
                            | None => jsonl_line data
                            end;
                 sha := Some rev |}.
Proof.
  intros Hends Hidle Hok Hsha. rewrite (appendToCollection_jsonl _ _ _ _ _ Hends Hok).
  set (w := {| qw_path := path; qw_content := jsonl_line data;
               qw_message := "Append to collection: " +:+ path; qw_append := true |}).
  destruct (lone_write_stores caller w m Hidle Hok Hsha)
    as (m' & rev & Hrun & Hfut & Hidle' & Hfile & Hfail & _).
  exists m', rev. simpl in Hfile. auto.
Qed.

Lemma append_all_content (iv : nat -> string) (path : string) (documents : list Document)
  (m : StorageManager) (before : string) :
  Js.endsWith ".jsonl" path = true ->
  idle m ->
  path ∉ failing (store m) ->
  match files (store m) !! path with
  | Some f => content f = before /\ is_Some (sha f)
  | None => before = EmptyString
  end ->
  exists m',
    append_all iv path documents m = Some m'
    /\ (path ∉ failing (store m'))
    /\ match files (store m') !! path with
       | Some f =>
           content f = before +:+ String.concat EmptyString (map jsonl_line documents)
       | None => documents = [] /\ before = EmptyString
       end.
Proof.
  intros Hends. revert m before.
  induction documents as [|doc rest IH]; intros m before Hidle Hok Hfile.
  - exists m. split; [reflexivity|]. split; [exact Hok|].
    destruct (files (store m) !! path) as [f|].
    + destruct Hfile as [Hc _]. simpl. rewrite sapp_nil_r. exact Hc.
    + auto.
  - assert (Hsha : forall f, files (store m) !! path = Some f -> is_Some (sha f)).
    { intros f Hf. rewrite Hf in Hfile. tauto. }
    destruct (append_adds_a_line iv 0 path doc m Hends Hidle Hok Hsha)
      as (m1 & rev & Hrun & _ & Hidle1 & Hfail1 & Hfile1).
    assert (Hok1 : path ∉ failing (store m1)) by (rewrite Hfail1; exact Hok).
    destruct (IH m1 (before +:+ jsonl_line doc) Hidle1 Hok1) as (m' & Hall & Hok' & Hfile').
    { rewrite Hfile1. simpl. split; [|eauto].
      destruct (files (store m) !! path) as [f|].
      - destruct Hfile as [-> _]. reflexivity.
      - rewrite Hfile. reflexivity. }
    exists m'. cbn [append_all]. rewrite Hrun. split; [exact Hall|]. split; [exact Hok'|].
    destruct (files (store m') !! path) as [f|].
    + rewrite Hfile'. change (map jsonl_line (doc :: rest))
        with ([jsonl_line doc] ++ map jsonl_line rest).
      rewrite concat_app, sapp_assoc. reflexivity.
    + destruct Hfile' as [_ Habs]. exfalso.
      apply (f_equal String.length) in Habs. unfold jsonl_line in Habs.
      rewrite !length_sapp in Habs. simpl in Habs. lia.
Qed.

(** X24: documents appended one after the other to a line-delimited path
    that did not exist, each call awaited, make a collection that is read
    back as the copies of these documents in the order of the calls,
    whenever [JSON.stringify] prints each copy on one line that is not blank
    and [JSON.parse] reads that line back to the copy. *)
Theorem appended_documents_are_read_back (iv : nat -> string) (path : string)
  (documents : list Document) (r : Remote) :
  Js.endsWith ".jsonl" path = true ->
  path ∉ failing r ->
  files r !! path = None ->
  Forall (fun doc => one_line (JSON_stringify (copy_of doc) 0)) documents ->
  Forall (fun doc => JSON_parse (JSON_stringify (copy_of doc) 0) = Ok (copy_of doc))
    documents ->
  exists m',
    append_all iv path documents (new_manager r) = Some m'
    /\ Storage.readCollection path None (store m') = (Ok (map copy_of documents), store m').
Proof.
  intros Hends Hok Habsent Hlines Hparse.
  destruct (append_all_content iv path documents (new_manager r) EmptyString Hends)
    as (m' & Hall & Hok' & Hfile).
  { repeat split. }
  { exact Hok. }
  { simpl. rewrite Habsent. reflexivity. }
  exists m'. split; [exact Hall|].
  destruct (files (store m') !! path) as [f|] eqn:Hf.
  - eapply readCollection_of_content; [exact Hok'|exact Hf|].
    rewrite (getFormat_jsonl path Hends), Hfile, sapp_nil_l.
    unfold Storage.parseContent. simpl String.eqb. cbv iota.
    destruct documents as [|d rest]; [reflexivity|].
    set (lines := map (fun doc => JSON_stringify doc 0) (map copy_of (d :: rest))).
    assert (Hsame : map jsonl_line (d :: rest) = map (fun line => line +:+ Js.nl) lines).
    { unfold lines. rewrite !map_map. reflexivity. }
    rewrite Hsame, concat_lines by discriminate.
    assert (Hall' : Forall one_line lines).
    { unfold lines. apply Forall_map, Forall_map. exact Hlines. }
    destruct (non_blank_lines_joined lines Hall') as [_ Hread].
    rewrite Hread by discriminate.
    unfold lines. rewrite mapM_parse_lines; [reflexivity|].
    apply Forall_map. exact Hparse.
  - destruct Hfile as [-> _].
    unfold Storage.readCollection, and_then, getFile.
    rewrite (read_available _ _ Hok'), Hf. reflexivity.
Qed.

Lemma appendToCollection_json (iv : nat -> string) (caller : nat) (path : string)
  (data : Document) (m : StorageManager) (existing : list Document) :
  Js.endsWith ".jsonl" path = false ->
  path ∉ failing (store m) ->
  fst (Storage.readCollection path None (store m)) = Ok existing ->
  Storage.appendToCollection iv caller path data None m
  = enqueueWrite caller
      {| qw_path := path;
         qw_content := JSON_stringify (JArr (existing ++ [copy_of data])) 2;
         qw_message := "Append to collection: " +:+ path;
         qw_append := true |} m.
Proof.
  intros Hends Hok Hread. unfold Storage.appendToCollection. simpl.
  rewrite (getFormat_json path Hends).
  unfold Storage.append_line, and_then, getFile.
  rewrite (read_available _ _ Hok).
  change (String.eqb "json" "jsonl") with false. cbv beta iota.
  unfold Storage.handleJsonAppend, catch, and_then.
  destruct (Storage.readCollection path None (store m)) as [result r'].
  simpl in Hread. subst result. reflexivity.
Qed.

(** X25: an append to an existing collection under a path that is not
    line-delimited.  The text queued is that of the whole collection with
    the new document at its end, and it is queued as an addition: once the
    write has run, the file holds the text it had followed by the text of
    the whole extended array, not the extended array alone. *)
Theorem json_append_keeps_old_text (iv : nat -> string) (caller : nat) (path : string)
  (data : Document) (m : StorageManager) (f : File) (existing : list Document) :
  Js.endsWith ".jsonl" path = false ->
  idle m ->
  path ∉ failing (store m) ->
  files (store m) !! path = Some f ->
  is_Some (sha f) ->
  fst (Storage.readCollection path None (store m)) = Ok existing ->
  exists m',
    queue_run (Storage.appendToCollection iv caller path data None m) settled_write = Some m'
    /\ futures m' = futures m ++ [(caller, Ok tt)]
    /\ content <$> files (store m') !! path
       = Some (content f +:+ JSON_stringify (JArr (existing ++ [copy_of data])) 2).
Proof.
  intros Hends Hidle Hok Hf Hsha Hread.
  rewrite (appendToCollection_json _ _ _ _ _ existing Hends Hok Hread).
  set (w := {| qw_path := path;
               qw_content := JSON_stringify (JArr (existing ++ [copy_of data])) 2;
               qw_message := "Append to collection: " +:+ path; qw_append := true |}).
  destruct (lone_write_stores caller w m Hidle Hok)
    as (m' & rev & Hrun & Hfut & _ & Hfile & _).
  { simpl. intros f' Hf'. rewrite Hf in Hf'. injection Hf' as <-. exact Hsha. }
  exists m'. split; [exact Hrun|]. split; [exact Hfut|].
  simpl in Hfile. rewrite Hfile, Hf. reflexivity.
Qed.

End Appends.

(** *** Documents, the consistency check and removal *)

Lemma blank_truthy (s : string) : Js.blank s = false -> Js.truthy s = true.
Proof. destruct s; [discriminate|reflexivity]. Qed.

Lemma no_match_forallb (p : Document -> bool) (docs : list Document) :
  Nat.eqb (length (List.filter p docs)) 0 = forallb (fun doc => negb (p doc)) docs.
Proof.
  induction docs as [|d docs IH]; simpl; [reflexivity|].
  destruct (p d); simpl; [reflexivity|exact IH].
Qed.

Section Documents.

Context `{Platform} `{Crypto}.

Local Open Scope api_scope.

(** X26: a document written through the queue of a manager at rest, the
    write run to its end, and read again from the same path.  Under a path
    that is not line-delimited the reader returns the copy that was
    written; under a line-delimited path it returns an array that holds
    that copy as its only element.  [JSON.parse] is taken to read the text
    written back to the copy, and the text not to be blank (nor, on a
    line-delimited path, to hold a line feed). *)
Theorem document_written_is_read_back (iv : nat -> string) (caller : nat) (path : string)
  (data : Document) (m : StorageManager) :
  let fmt := Storage.getFormat path None in
  let text := Storage.serializeContent (copy_of data) fmt in
  idle m ->
  path ∉ failing (store m) ->
  (forall f, files (store m) !! path = Some f -> is_Some (sha f)) ->
  Js.blank text = false ->
  (fmt = "jsonl" -> Js.includes Js.newline text = false) ->
  JSON_parse text = Ok (copy_of data) ->
  exists m',
    queue_run (Storage.writeDocument iv caller path data None m) settled_write = Some m'
    /\ futures m' = futures m ++ [(caller, Ok tt)]
    /\ Storage.readDocument path None (store m')
       = (Ok (Some (if String.eqb fmt "jsonl" then JArr [copy_of data] else copy_of data)),
          store m').
Proof.
  intros fmt text Hidle Hok Hsha Hblank Hline Hparse.
  unfold Storage.writeDocument. simpl. fold (copy_of data). fold fmt. fold text.
  set (w := {| qw_path := path; qw_content := text;
               qw_message := "Write document: " +:+ path; qw_append := false |}).
  destruct (lone_write_stores caller w m Hidle Hok Hsha)
    as (m' & rev & Hrun & Hfut & _ & Hfile & Hfail & _).
  exists m'. split; [exact Hrun|]. split; [exact Hfut|].
  simpl in Hfile.
  assert (Hcontent : files (store m') !! path = Some {| content := text; sha := Some rev |}).
  { rewrite Hfile. destruct (files (store m) !! path); reflexivity. }
  unfold Storage.readDocument, and_then, getFile, lift.
  rewrite read_available by (rewrite Hfail; exact Hok).
  rewrite Hcontent. simpl content. fold fmt.
  unfold Storage.parseContent.
  destruct (String.eqb_spec fmt "jsonl") as [Hfmt|Hfmt].
  - unfold non_blank_lines. rewrite (split_no_separator _ _ (Hline Hfmt)). simpl.
    rewrite Hblank. simpl. rewrite Hparse. reflexivity.
  - rewrite (blank_truthy _ Hblank), Hparse. reflexivity.
Qed.

(** X27: the consistency check answers from the source alone.  Its answer
    is the same whatever the destination path, it changes nothing in the
    store, it is [true] when the source cannot be read or parsed, and
    otherwise [true] exactly when the predicate accepts no document of the
    source; what the destination holds is never compared. *)
Theorem verifyConsistency_reads_the_source_only (s d d' : string)
  (predicate : Document -> bool) (r : Remote) :
  verifyConsistency s d predicate r = verifyConsistency s d' predicate r
  /\ snd (verifyConsistency s d predicate r) = r
  /\ (forall e, fst (Storage.readCollection s None r) = Throw e ->
      fst (verifyConsistency s d predicate r) = Ok true)
  /\ (forall docs, fst (Storage.readCollection s None r) = Ok docs ->
      fst (verifyConsistency s d predicate r)
      = Ok (forallb (fun doc => negb (predicate doc)) docs)).
Proof.
  unfold verifyConsistency, read_or_empty. simpl.
  split; [reflexivity|]. split; [reflexivity|]. split.
  - intros e He. rewrite He. reflexivity.
  - intros docs Hdocs. rewrite Hdocs, no_match_forallb. reflexivity.
Qed.

Lemma getCollection_keeps_store (path : string) (options : option OperationOptions)
  (r : Remote) :
  snd (GitHubDB.getCollection path options r) = r.
Proof.
  unfold GitHubDB.getCollection, catch, throw.
  pose proof (readCollection_keeps_store (GitHubDB.normalizePath path) options r) as Hkeep.
  destruct (Storage.readCollection (GitHubDB.normalizePath path) options r) as [[docs|e] r'];
    exact Hkeep.
Qed.

Lemma getCollection_depends (path : string) (options : option OperationOptions)
  (r r' : Remote) :
  failing r' = failing r ->
  files r' !! GitHubDB.normalizePath path = files r !! GitHubDB.normalizePath path ->
  fst (GitHubDB.getCollection path options r') = fst (GitHubDB.getCollection path options r).
Proof.
  intros Hfail Hfile. unfold GitHubDB.getCollection, catch, throw.
  pose proof (readCollection_depends (GitHubDB.normalizePath path) options r r' Hfail Hfile)
    as Hsame.
  destruct (Storage.readCollection (GitHubDB.normalizePath path) options r') as [[docs'|e'] r1'],
    (Storage.readCollection (GitHubDB.normalizePath path) options r) as [[docs|e] r1];
    simpl in *; congruence.
Qed.

Lemma longer_path_differs (path ending : string) :
  path <> path +:+ "." +:+ ending.
Proof.
  intros Heq. apply (f_equal String.length) in Heq.
  rewrite !length_sapp in Heq. simpl in Heq. lia.
Qed.

(** Where [remove] leaves the store: as it was, or after one update of the
    path it builds from the collection path and the format. *)
Lemma remove_store (config_format : option string) (collectionPath : string)
  (predicate : Document -> bool) (r : Remote) :
  let filePath :=
    GitHubDB.normalizePath collectionPath +:+ "."
    +:+ match config_format with
        | Some chosen => if Js.truthy chosen then chosen else "json"
        | None => "json"
        end in
  snd (GitHubDB.remove config_format collectionPath predicate r) = r
  \/ exists text message revision,
       snd (GitHubDB.remove config_format collectionPath predicate r)
       = snd (updateFile filePath text message revision r).
Proof.
  intros filePath. unfold GitHubDB.remove, catch, and_then, throw. fold filePath.
  pose proof (getCollection_keeps_store (GitHubDB.normalizePath collectionPath) None r)
    as Hkeep.
  destruct (GitHubDB.getCollection (GitHubDB.normalizePath collectionPath) None r)
    as [[documents|e] r1]; simpl in Hkeep; subst r1; [|left; reflexivity].
  unfold getFile. destruct (read r filePath) as [[file|]|e]; try (left; reflexivity).
  destruct (present (sha file)); [|left; reflexivity].
  right. eexists _, _, _.
  destruct (updateFile filePath _ _ (sha file) r) as [[[]|e] r2] eqn:Hup;
    rewrite Hup; reflexivity.
Qed.

(** X28: [remove] reads the collection under the path it is given and
    writes the documents it keeps under another path, the given one
    followed by a dot and the format of the configuration.  So the file of
    the collection is never changed by it, and reading the collection after
    [remove] gives what it gave before, whatever the predicate and the
    outcome. *)
Theorem remove_leaves_the_collection (config_format : option string)
  (collectionPath : string) (predicate : Document -> bool) (r : Remote) :
  let r' := snd (GitHubDB.remove config_format collectionPath predicate r) in
  files r' !! GitHubDB.normalizePath collectionPath
  = files r !! GitHubDB.normalizePath collectionPath
  /\ fst (GitHubDB.getCollection collectionPath None r')
     = fst (GitHubDB.getCollection collectionPath None r).
Proof.
  intros r'.
  assert (Hstore : failing r' = failing r
                   /\ files r' !! GitHubDB.normalizePath collectionPath
                      = files r !! GitHubDB.normalizePath collectionPath).
  { unfold r'.
    destruct (remove_store config_format collectionPath predicate r)
      as [->|(text & message & revision & ->)]; [split; reflexivity|].
    split; [apply failing_updateFile|].
    apply updateFile_frame.
    apply longer_path_differs. }
  destruct Hstore as [Hfail Hfile]. split; [exact Hfile|].
  apply getCollection_depends; assumption.
Qed.

(** X29: [convertFormat] changes no path other than its destination and
    never replaces a destination that exists: the call then fails and the
    file is as it was.  When the source is absent the call fails before any
    request to write. *)
Theorem convertFormat_only_creates (s d : string) (options : ConversionOptions)
  (r : Remote) :
  let '(outcome, r') := convertFormat s d options r in
  (forall p, p <> d -> files r' !! p = files r !! p)
  /\ (forall fd, files r !! d = Some fd ->
      files r' !! d = Some fd /\ exists e, outcome = Throw e)
  /\ (s ∉ failing r -> files r !! s = None ->
      outcome = Throw ("Source file " +:+ s +:+ " not found") /\ r' = r).
Proof.
  unfold convertFormat, and_then, getFile, throw, lift.
  destruct (read r s) as [[file|]|e] eqn:Hread.
  - destruct (convertContent (content file) options) as [text|e].
    + pose proof (createFile_frame d text ("Convert format: " +:+ s +:+ " -> " +:+ d) r)
        as Hframe.
      unfold createFile in *. simpl in *.
      destruct (files r !! d) as [fd|] eqn:Hd; simpl in *.
      * split; [intros; reflexivity|]. split.
        -- intros fd' [= <-]. split; [exact Hd|eauto].
        -- intros Hok Hs. rewrite (read_available r s Hok), Hs in Hread. discriminate.
      * split; [exact Hframe|]. split; [intros fd [=]|].
        intros Hok Hs. rewrite (read_available r s Hok), Hs in Hread. discriminate.
    + split; [reflexivity|]. split; [eauto|].
      intros Hok Hs. rewrite (read_available r s Hok), Hs in Hread. discriminate.
  - split; [reflexivity|]. split; [eauto|]. intros _ _. split; reflexivity.
  - split; [reflexivity|]. split; [eauto|].
    intros Hok Hs. rewrite (read_available r s Hok) in Hread. discriminate.
Qed.

(** The text [hash] returns is read back by [unhash]: it is split at its
    colon into the vector and the cipher text, which are given to the
    cipher to undo, provided neither holds a colon (both are written in
    hexadecimal); a text without any colon, such as a value that was never
    hashed, is refused before the cipher is called. *)
Lemma unhash_reads_hash_back (iv value encrypted : string) :
  Js.includes colon iv = false ->
  Js.includes colon encrypted = false ->
  encrypt iv (JStr value) = Ok encrypted ->
  HashManager.hash iv (JStr value) = Ok (iv +:+ ":" +:+ encrypted)
  /\ HashManager.unhash (iv +:+ ":" +:+ encrypted) = decrypt iv encrypted
  /\ (Js.includes colon value = false ->
      HashManager.unhash value = Throw "Invalid encrypted data format").
Proof.
  intros Hiv Henc Hencrypt. unfold HashManager.hash, HashManager.unhash.
  rewrite Hencrypt. split; [reflexivity|]. split.
  - change (iv +:+ ":" +:+ encrypted) with (iv +:+ String colon encrypted).
    rewrite (split_append _ _ _ Hiv), (split_no_separator _ _ Henc). reflexivity.
  - intros Hvalue. rewrite (split_no_separator _ _ Hvalue). reflexivity.
Qed.

End Documents.

(** X21: the storage manager and the transfer agree on the format of every
    path that ends in [.jsonl] or in [.json]: what one of them writes there,
    the other reads with the codec of the same format. *)
Theorem formats_agree_on_json_paths (path : string) :
  Js.endsWith ".jsonl" path = true \/ Js.endsWith ".json" path = true ->
  detectFormat path = Storage.getFormat path None.
Proof.
  assert (Hjsonl : forall pre, detectFormat (pre +:+ ".jsonl") = "jsonl").
  { intros pre. unfold detectFormat.
    change (pre +:+ ".jsonl") with (pre +:+ String Js.dot "jsonl").
    rewrite extension_of_suffix by reflexivity. reflexivity. }
  assert (Hjson : forall pre, detectFormat (pre +:+ ".json") = "json").
  { intros pre. unfold detectFormat.
    change (pre +:+ ".json") with (pre +:+ String Js.dot "json").
    rewrite extension_of_suffix by reflexivity. reflexivity. }
  unfold Storage.getFormat. simpl.
  intros [Hl|Hj].
  - rewrite Hl. apply endsWith_suffix in Hl as (pre & ->). apply Hjsonl.
  - destruct (Js.endsWith ".jsonl" path) eqn:Hl.
    + apply endsWith_suffix in Hl as (pre & Hpre).
      apply endsWith_suffix in Hj as (pre' & Hpre').
      pose proof (Hjsonl pre) as H1. pose proof (Hjson pre') as H2.
      rewrite <- Hpre in H1. rewrite <- Hpre' in H2. congruence.
    + apply endsWith_suffix in Hj as (pre & ->). apply Hjson.
Qed.

Section StorageRuns.

Existing Instance reference_platform.
Existing Instance sample_crypto.

Lemma jsonl_text_is_shared_witness :
  Storage.parseContent (Storage.serializeContent (JArr [user 1 30; user 2 20]) "jsonl") "jsonl"
  = Ok (JArr [user 1 30; user 2 20])
  /\ parse JSONLFormatter (Storage.serializeContent (JArr [user 1 30; user 2 20]) "jsonl")
       default_format_options
     = Ok [user 1 30; user 2 20]
  /\ bind (serialize JSONLFormatter [user 1 30; user 2 20] default_format_options)
       (fun text => Storage.parseContent text "jsonl")
     = Ok (JArr [user 1 30; user 2 20]).
Proof.
  apply (jsonl_text_is_shared [user 1 30; user 2 20] default_format_options).
  - repeat constructor.
  - repeat constructor.
Defined.

Lemma collection_written_is_read_back_witness :
  exists m',
    queue_run
      (Storage.writeCollection 1 "users.jsonl" [user 1 30; user 2 20]
         (new_manager empty_remote))
      settled_write = Some m'
    /\ futures m' = futures (new_manager empty_remote) ++ [(1, Ok tt)]
    /\ idle m'
    /\ Storage.readCollection "users.jsonl" None (store m')
       = (Ok [user 1 30; user 2 20], store m').
Proof.
  apply (collection_written_is_read_back 1 "users.jsonl" [user 1 30; user 2 20]
           (new_manager empty_remote)).
  - repeat split.
  - apply (bool_decide_unpack _). vm_compute. exact I.
  - intros f Hf. vm_compute in Hf. discriminate.
  - vm_compute. reflexivity.
Defined.

Lemma appended_documents_are_read_back_witness :
  exists m',
    append_all no_vector "users.jsonl" [user 1 30; user 2 20] (new_manager empty_remote)
    = Some m'
    /\ Storage.readCollection "users.jsonl" None (store m')
       = (Ok (map copy_of [user 1 30; user 2 20]), store m').
Proof.
  apply (appended_documents_are_read_back no_vector "users.jsonl" [user 1 30; user 2 20]
           empty_remote).
  - reflexivity.
  - apply (bool_decide_unpack _). vm_compute. exact I.
  - reflexivity.
  - repeat constructor.
  - repeat constructor.
Defined.

Lemma json_append_keeps_old_text_witness :
  exists m',
    queue_run
      (Storage.appendToCollection no_vector 1 "users.json" (user 2 20) None
         (new_manager one_user_remote))
      settled_write = Some m'
    /\ futures m' = futures (new_manager one_user_remote) ++ [(1, Ok tt)]
    /\ content <$> files (store m') !! "users.json"
       = Some (Json.stringify (JArr [user 1 30]) 2
               +:+ Json.stringify (JArr ([user 1 30] ++ [copy_of (user 2 20)])) 2).
Proof.
  destruct (json_append_keeps_old_text no_vector 1 "users.json" (user 2 20)
              (new_manager one_user_remote)
              {| content := Json.stringify (JArr [user 1 30]) 2; sha := Some "s1" |}
              [user 1 30])
    as (m' & Hrun & Hfutures & Hcontent).
  - reflexivity.
  - repeat split.
  - apply (bool_decide_unpack _). vm_compute. exact I.
  - reflexivity.
  - eexists. reflexivity.
  - vm_compute. reflexivity.
  - exists m'. split; [exact Hrun|]. split; [exact Hfutures|exact Hcontent].
Defined.

(** After that append the collection cannot be read: two arrays one after
    the other are no JSON text. *)
Lemma json_collection_unreadable_after_append :
  exists e, fst (Storage.readCollection "users.json" None after_json_append) = Throw e.
Proof. eexists. vm_compute. reflexivity. Qed.

Lemma document_written_is_read_back_witness :
  exists m',
    queue_run
      (Storage.writeDocument no_vector 1 "user.jsonl" (user 1 30) None
         (new_manager empty_remote))
      settled_write = Some m'
    /\ futures m' = futures (new_manager empty_remote) ++ [(1, Ok tt)]
    /\ Storage.readDocument "user.jsonl" None (store m')
       = (Ok (Some (JArr [copy_of (user 1 30)])), store m').
Proof.
  apply (document_written_is_read_back no_vector 1 "user.jsonl" (user 1 30)
           (new_manager empty_remote)).
  - repeat split.
  - apply (bool_decide_unpack _). vm_compute. exact I.
  - intros f Hf. vm_compute in Hf. discriminate.
  - reflexivity.
  - intros _. reflexivity.
  - reflexivity.
Defined.

Lemma unhash_reads_hash_back_witness :
  HashManager.hash "00ff" (JStr "secret") = Ok ("00ff" +:+ ":" +:+ "secret")
  /\ HashManager.unhash ("00ff" +:+ ":" +:+ "secret") = decrypt "00ff" "secret"
  /\ (Js.includes colon "secret" = false ->
      HashManager.unhash "secret" = Throw "Invalid encrypted data format").
Proof.
  apply (unhash_reads_hash_back "00ff" "secret" "secret"); reflexivity.
Defined.

End StorageRuns.

Lemma formats_agree_on_json_paths_witness :
  detectFormat "users.jsonl" = Storage.getFormat "users.jsonl" None.
Proof. apply formats_agree_on_json_paths. left. reflexivity. Defined.

(** *** Hashed fields *)






Section Hashing.

Context `{Platform} `{Crypto}.





End Hashing.

Section HashingRuns.

Existing Instance reference_platform.
Existing Instance sample_crypto.


End HashingRuns.
